(** * Risk engine of the commodities dashboard (app.py)

    A shallow embedding of the numerical core of [app.py]: the log-return
    transform, the historical and Monte Carlo VaR/CVaR estimators, the
    Black-Scholes pricer and the walk-forward GARCH block of [main].

    Numbers.  The program computes on NumPy [float64] values.  They are
    modelled by [npfloat]: a real number, or one of the IEEE special values
    [+inf], [-inf], [nan].  The special values follow IEEE-754 (and so what
    NumPy returns, with a warning and no exception); arithmetic on finite
    values is exact real arithmetic, so rounding and overflow are left out,
    and the sign of zero is not tracked (a zero divisor counts as [+0]).

    Libraries.  [np.quantile], the pandas frame operations and
    [scipy.stats.norm] are modelled from their documented behaviour; the
    [arch] estimator is a parameter of the GARCH section. *)

From Stdlib Require Import Reals ROrderedType Lra Lia List ZArith Bool.
From Stdlib Require Import Sorting.Sorted Sorting.Permutation.
From Stdlib Require Import ClassicalEpsilon.
Import ListNotations.

Local Open Scope R_scope.

(** ** NumPy float64 values *)

Inductive npfloat : Type :=
| Fin (x : R)
| PInf
| NInf
| NaN.

(** Sign of a value: [None] for [nan]. *)
Definition fsign (a : npfloat) : option comparison :=
  match a with
  | Fin x => Some (Rcompare x 0)
  | PInf => Some Gt
  | NInf => Some Lt
  | NaN => None
  end.

(** The infinity of a given sign; a zero sign stands for an invalid
    operation ([0 * inf]). *)
Definition inf_of_sign (c : comparison) : npfloat :=
  match c with
  | Gt => PInf
  | Lt => NInf
  | Eq => NaN
  end.

Definition sign_mul (c d : comparison) : comparison :=
  match c, d with
  | Eq, _ | _, Eq => Eq
  | Gt, Gt | Lt, Lt => Gt
  | Gt, Lt | Lt, Gt => Lt
  end.

Definition fneg (a : npfloat) : npfloat :=
  match a with
  | Fin x => Fin (- x)
  | PInf => NInf
  | NInf => PInf
  | NaN => NaN
  end.

Definition fadd (a b : npfloat) : npfloat :=
  match a, b with
  | NaN, _ | _, NaN => NaN
  | Fin x, Fin y => Fin (x + y)
  | PInf, NInf | NInf, PInf => NaN
  | PInf, _ | _, PInf => PInf
  | NInf, _ | _, NInf => NInf
  end.

Definition fsub (a b : npfloat) : npfloat := fadd a (fneg b).

Definition fmul (a b : npfloat) : npfloat :=
  match a, b with
  | NaN, _ | _, NaN => NaN
  | Fin x, Fin y => Fin (x * y)
  | _, _ =>
      match fsign a, fsign b with
      | Some c, Some d => inf_of_sign (sign_mul c d)
      | _, _ => NaN
      end
  end.

(** Division: a finite non-zero value over zero is an infinity of the sign of
    the numerator, [0/0] and [inf/inf] are [nan]. *)
Definition fdiv (a b : npfloat) : npfloat :=
  match a, b with
  | NaN, _ | _, NaN => NaN
  | Fin x, Fin y =>
      match Rcompare y 0 with
      | Eq => inf_of_sign (Rcompare x 0)
      | _ => Fin (x / y)
      end
  | Fin _, _ => Fin 0
  | _, Fin y =>
      match Rcompare y 0 with
      | Lt => fneg a
      | _ => a
      end
  | _, _ => NaN
  end.

(** [np.sqrt] *)
Definition fsqrt (a : npfloat) : npfloat :=
  match a with
  | Fin x => match Rcompare x 0 with Lt => NaN | _ => Fin (sqrt x) end
  | PInf => PInf
  | NInf | NaN => NaN
  end.

(** [np.log] *)
Definition flog (a : npfloat) : npfloat :=
  match a with
  | Fin x =>
      match Rcompare x 0 with
      | Gt => Fin (ln x)
      | Eq => NInf
      | Lt => NaN
      end
  | PInf => PInf
  | NInf | NaN => NaN
  end.

(** [np.exp] *)
Definition fexp (a : npfloat) : npfloat :=
  match a with
  | Fin x => Fin (exp x)
  | PInf => PInf
  | NInf => Fin 0
  | NaN => NaN
  end.

(** The comparison [a <= b]; false as soon as one side is [nan]. *)
Definition fle (a b : npfloat) : bool :=
  match a, b with
  | NaN, _ | _, NaN => false
  | NInf, _ | _, PInf => true
  | Fin x, Fin y => match Rcompare x y with Gt => false | _ => true end
  | _, _ => false
  end.

Definition isnan (a : npfloat) : bool :=
  match a with NaN => true | _ => false end.

(** ** Outcome of a call: a value, or an exception *)

(** The exceptions of the specification's taxonomy, Python's
    [AssertionError], and the two NumPy raises on the paths modelled here. *)
Inductive error : Type :=
| InsufficientDataError
| InvalidDataError
| InvalidParameterError
| DegenerateSampleError
| FitConvergenceError
| AssertionError
| ValueError
| IndexError.

Inductive outcome (A : Type) : Type :=
| Returned (a : A)
| Raised (e : error).

Arguments Returned {A} a.
Arguments Raised {A} e.

Definition bind {A B : Type} (m : outcome A) (k : A -> outcome B) : outcome B :=
  match m with
  | Returned a => k a
  | Raised e => Raised e
  end.

Notation "x <- m ;; k" := (bind m (fun x => k))
  (at level 61, m at next level, right associativity).

(** ** pandas frames with one float column *)

Definition Timestamp : Type := Z.

(** A one-column frame (or a series): its rows in order, each an index label
    and a value. *)
Definition Frame : Type := list (Timestamp * npfloat).

Definition index (df : Frame) : list Timestamp := map fst df.
Definition to_numpy (df : Frame) : list npfloat := map snd df.

(** [df.shift(1)]: every value moves one row down, the first becomes [nan]. *)
Definition shift1 (df : Frame) : Frame :=
  combine (index df) (NaN :: removelast (to_numpy df)).

(** Element-wise binary operation on two arrays of the same shape. *)
Fixpoint zip_with (f : npfloat -> npfloat -> npfloat) (a b : list npfloat)
  : list npfloat :=
  match a, b with
  | x :: a', y :: b' => f x y :: zip_with f a' b'
  | _, _ => []
  end.

(** ** get_log_returns (app.py, lines 20-37) *)

Definition get_log_returns (dataframe : Frame) : outcome Frame :=
  let previous_returns := shift1 dataframe in
  let previous_returns := to_numpy previous_returns in
  let dataframe_ := to_numpy dataframe in
  let log_returns := map flog (zip_with fdiv dataframe_ previous_returns) in
  let log_returns := skipn 1 log_returns in
  Returned (combine (removelast (index dataframe)) log_returns).

(** ** Array and frame operations used by the estimators *)

(** [<=] on reals as a boolean. *)
Definition Rleb (x y : R) : bool :=
  match Rcompare x y with Gt => false | _ => true end.

(** Sum of an array. *)
Definition fsum (a : list npfloat) : npfloat := fold_right fadd (Fin 0) a.

(** The [w] values that end at position [i]. *)
Definition window (w i : nat) (a : list npfloat) : list npfloat :=
  firstn w (skipn (i + 1 - w) a).

(** [df.rolling(w).sum()]: at each row the sum of the trailing [w] values,
    [nan] while fewer than [w] values are available (and when the window
    holds a [nan], which pandas counts as a missing observation). *)
Definition rolling_sum (w : nat) (df : Frame) : Frame :=
  combine (index df)
    (map (fun i => if (i + 1 <? w)%nat then NaN else fsum (window w i (to_numpy df)))
       (seq 0 (length df))).

(** [df.dropna()] *)
Definition dropna (df : Frame) : Frame :=
  filter (fun row => negb (isnan (snd row))) df.

(** Rows whose value is [<= bound]: [df[df['col'] <= bound]]. *)
Definition rows_le (bound : npfloat) (df : Frame) : Frame :=
  filter (fun row => fle (snd row) bound) df.

(** [df.mean().values[0]]: the mean of the values that are not [nan], and
    [nan] when there is none. *)
Definition df_mean (df : Frame) : npfloat :=
  match filter (fun v => negb (isnan v)) (to_numpy df) with
  | [] => NaN
  | v => fdiv (fsum v) (Fin (INR (length v)))
  end.

(** Sorting an array without [nan], by insertion. *)
Fixpoint insert_sorted (x : npfloat) (l : list npfloat) : list npfloat :=
  match l with
  | [] => [x]
  | y :: l' => if fle x y then x :: l else y :: insert_sorted x l'
  end.

Definition np_sort (a : list npfloat) : list npfloat :=
  fold_right insert_sorted [] a.

(** [np.floor] of a non-negative index. *)
Definition floor_nat (x : R) : nat := Z.to_nat (Int_part x).

(** NumPy's [_lerp(a, b, t)]. *)
Definition lerp (a b : npfloat) (t : R) : npfloat :=
  let diff_b_a := fsub b a in
  if Rleb (1 / 2) t
  then fsub b (fmul diff_b_a (Fin (1 - t)))
  else fadd a (fmul diff_b_a (Fin t)).

(** [np.quantile(a, q)] with the default method ['linear']: the virtual index
    [(n - 1) * q] is split into its floor [previous] and its fractional part
    [gamma], and the result interpolates between the sorted values at
    [previous] and [previous + 1] (clipped to the last position).  A [q]
    outside [[0, 1]] raises [ValueError], an empty array raises [IndexError],
    and an array that holds a [nan] gives [nan]. *)
Definition np_quantile (a : list npfloat) (q : R) : outcome npfloat :=
  if negb (Rleb 0 q && Rleb q 1) then Raised ValueError
  else
    match a with
    | [] => Raised IndexError
    | _ =>
        if existsb isnan a then Returned NaN
        else
          let arr := np_sort a in
          let n := length a in
          let virtual_index := INR (n - 1) * q in
          let previous_index := floor_nat virtual_index in
          let next_index := Nat.min (previous_index + 1) (n - 1) in
          let gamma := virtual_index - INR previous_index in
          Returned (lerp (nth previous_index arr NaN) (nth next_index arr NaN) gamma)
    end.

(** ** get_var_cvar (app.py, lines 40-54) *)

Definition get_var_cvar (dataframe : Frame) (rolling_window : nat) (p_value : R)
  : outcome (npfloat * npfloat) :=
  log_returns <- get_log_returns dataframe ;;
  let sum_log_returns := dropna (rolling_sum rolling_window log_returns) in
  log_value_at_risk <- np_quantile (to_numpy sum_log_returns) p_value ;;
  let log_expected_shortfall := df_mean (rows_le log_value_at_risk sum_log_returns) in
  Returned (log_value_at_risk, log_expected_shortfall).

(** ** scipy.stats.norm *)

(** Density of the standard normal law. *)
Definition gauss_pdf (t : R) : R := exp (- (t * t) / 2) / sqrt (2 * PI).

Lemma gauss_pdf_continuity : continuity gauss_pdf.
Proof.
  unfold gauss_pdf. reg.
Qed.

(** Area under the density between [a] and [b], for [a <= b]. *)
Definition gauss_area (a b : R) (Hab : a <= b) : R :=
  RiemannInt
    (continuity_implies_RiemannInt Hab (fun x _ => gauss_pdf_continuity x)).

(** The standard normal distribution function on the reals: one half plus
    the signed area between [0] and [x]. *)
Definition Phi (x : R) : R :=
  match Rle_dec 0 x with
  | left H => 1 / 2 + gauss_area 0 x H
  | right H => 1 / 2 - gauss_area x 0 (Rlt_le _ _ (Rnot_le_lt _ _ H))
  end.

(** Its inverse: a point where [Phi] takes the value [p]. *)
Definition Phi_inv (p : R) : R :=
  epsilon (inhabits 0) (fun x => Phi x = p).

(** [norm().cdf] *)
Definition norm_cdf (a : npfloat) : npfloat :=
  match a with
  | Fin x => Fin (Phi x)
  | PInf => Fin 1
  | NInf => Fin 0
  | NaN => NaN
  end.

(** [norm().ppf] at a probability strictly between 0 and 1. *)
Definition norm_ppf (p : R) : npfloat := Fin (Phi_inv p).

(** ** call_black_scholes and put_black_scholes (app.py, lines 57-89) *)

Definition call_black_scholes (S_0 K log_vol rate delta_t : npfloat)
  : outcome npfloat :=
  let scale := fdiv (Fin 1) (fmul log_vol (fsqrt delta_t)) in
  let d_up :=
    fmul scale
      (fadd (flog (fdiv S_0 K))
         (fmul delta_t (fadd rate (fmul (Fin (1 / 2)) (fmul log_vol log_vol))))) in
  let d_down := fsub d_up (fmul log_vol (fsqrt delta_t)) in
  let discount_rate := fexp (fmul (fneg rate) delta_t) in
  let d_up_cum := norm_cdf d_up in
  let d_down_cum := norm_cdf d_down in
  let call_value := fsub (fmul S_0 d_up_cum) (fmul (fmul K discount_rate) d_down_cum) in
  Returned call_value.

Definition put_black_scholes (S_0 K log_vol rate delta_t : npfloat)
  : outcome npfloat :=
  call_value <- call_black_scholes S_0 K log_vol rate delta_t ;;
  Returned (fadd (fsub call_value S_0) (fmul K (fexp (fmul (fneg rate) delta_t)))).

(** ** MonteCarloVar (app.py, lines 92-112) *)

(** [pd.DataFrame(values, columns=[...])]: a frame over the default index
    [0, 1, ...]. *)
Definition frame_of_array (a : list npfloat) : Frame :=
  combine (map Z.of_nat (seq 0 (length a))) a.

(** [np.random.normal(loc, scale, size=(rows, cols))] over an explicit source
    of standard normal draws: [draw i j] is the draw of row [i], column [j],
    shifted by [loc] and stretched by [scale].  A negative [scale] raises
    [ValueError]. *)
Definition np_random_normal (draw : nat -> nat -> R) (loc scale : npfloat)
  (rows cols : nat) : outcome (list (list npfloat)) :=
  match fsign scale with
  | Some Lt => Raised ValueError
  | _ =>
      Returned
        (map (fun i => map (fun j => fadd loc (fmul scale (Fin (draw i j)))) (seq 0 cols))
           (seq 0 rows))
  end.

Definition MonteCarloVar (draw : nat -> nat -> R) (mu vol delta_T : npfloat)
  (_periods _simulations : nat) (p_value : R)
  : outcome (Frame * npfloat * npfloat) :=
  normal_samples <-
    np_random_normal draw (fmul mu delta_T) (fmul vol (fsqrt delta_T))
      _simulations _periods ;;
  let normal_samples := map fsum normal_samples in
  var_p <- np_quantile normal_samples p_value ;;
  let sim_returns := frame_of_array normal_samples in
  let cvar_p := df_mean (rows_le var_p sim_returns) in
  Returned (sim_returns, var_p, cvar_p).

(** ** The GARCH block of main (app.py, lines 325-333 and 431-491) *)

Definition feqb (a b : npfloat) : bool :=
  match a, b with
  | Fin x, Fin y => match Rcompare x y with Eq => true | _ => false end
  | PInf, PInf | NInf, NInf | NaN, NaN => true
  | _, _ => false
  end.

(** [a.equals(b)]: same shape, same labels and same values row by row, a
    [nan] being equal to a [nan] at the same place. *)
Fixpoint frame_equals (a b : Frame) : bool :=
  match a, b with
  | [], [] => true
  | (t, x) :: a', (u, y) :: b' => Z.eqb t u && feqb x y && frame_equals a' b'
  | _, _ => false
  end.

(** [df.iloc[i:j]] *)
Definition iloc_slice (i j : nat) (df : Frame) : Frame :=
  firstn (j - i) (skipn i df).

(** [a.iloc[i] = v] for [i] within the array. *)
Fixpoint iloc_set (i : nat) (v : npfloat) (a : list npfloat) : list npfloat :=
  match a, i with
  | [], _ => []
  | _ :: a', O => v :: a'
  | x :: a', S i' => x :: iloc_set i' v a'
  end.

(** The scaling of line 327: [1000 * sum_log_returns]. *)
Definition garch_data (sum_log_returns : Frame) : Frame :=
  map (fun row => (fst row, fmul (Fin 1000) (snd row))) sum_log_returns.

(** [int(n * 0.8)].  The double nearest to 0.8 exceeds 4/5 by one part in
    2^54, less than half a unit in the last place of a product, so for every
    length a frame can have the product truncates to the integer part of
    [4n/5]. *)
Definition split_point (n : nat) : nat := (4 * n) / 5.

Definition training_data (data : Frame) : Frame :=
  firstn (split_point (length data)) data.

Definition testing_data (data : Frame) : Frame :=
  skipn (split_point (length data)) data.

(** [assert b] *)
Definition py_assert (b : bool) : outcome unit :=
  if b then Returned tt else Raised AssertionError.

(** [for i in range(n)] over a state, stopping at the first exception. *)
Fixpoint for_range {St : Type} (body : nat -> St -> outcome St) (i n : nat)
  (s : St) : outcome St :=
  match n with
  | O => Returned s
  | S n' => s' <- body i s ;; for_range body (S i) n' s'
  end.

Section Garch.

(** The [arch] library: the fitted model of
    [arch_model(y, mean='Zero', vol='Garch', p=p, q=q).fit(disp='off')] and its
    one-step variance forecast
    [model_fit.forecast(horizon=1).variance.iloc[0].values[0]]; either call
    may raise. *)
Variable ARCHModelResult : Type.
Variable arch_fit : list npfloat -> nat -> nat -> outcome ARCHModelResult.
Variable forecast_variance : ARCHModelResult -> outcome npfloat.

(** The variables the walk-forward loop updates. *)
Record walk_state : Type := {
  conditional_training_data : Frame;
  model_fit : ARCHModelResult;
  forcasted_values : list npfloat
}.

(** One pass of the loop of lines 434-448. *)
Definition walk_step (testing : Frame) (p_garch q_garch : nat) (i : nat)
  (st : walk_state) : outcome walk_state :=
  prediction <- forecast_variance (model_fit st) ;;
  let forcasted := iloc_set i (fsqrt prediction) (forcasted_values st) in
  let conditional :=
    conditional_training_data st ++ iloc_slice i (i + 1) testing in
  fit <- arch_fit (to_numpy conditional) p_garch q_garch ;;
  Returned {| conditional_training_data := conditional;
              model_fit := fit;
              forcasted_values := forcasted |}.

(** Lines 331-333, 390-393 and 432-448: the split, the first fit and the
    loop. *)
Definition walk_loop (data : Frame) (p_garch q_garch : nat)
  : outcome walk_state :=
  let training := training_data data in
  let testing := testing_data data in
  let conditional := training in
  fit <- arch_fit (to_numpy training) p_garch q_garch ;;
  let forcasted := map (fun _ => NaN) testing in
  for_range (walk_step testing p_garch q_garch) 0 (length testing)
    {| conditional_training_data := conditional;
       model_fit := fit;
       forcasted_values := forcasted |}.

(** The loop followed by the assertion of line 451. *)
Definition walk_forward (data : Frame) (p_garch q_garch : nat)
  : outcome walk_state :=
  st <- walk_loop data p_garch q_garch ;;
  _ <- py_assert (frame_equals (conditional_training_data st) data) ;;
  Returned st.

End Garch.

Arguments conditional_training_data {ARCHModelResult} _.
Arguments model_fit {ARCHModelResult} _.
Arguments forcasted_values {ARCHModelResult} _.

(** Lines 489-491: the forecast volatilities turned into a VaR path. *)
Definition forecasted_var (forcasted : list npfloat) : list npfloat :=
  let forecasted_var := map (fun v => fdiv v (Fin 1000)) forcasted in
  let forecasted_var := map (fun v => fmul v (norm_ppf (5 / 100))) forecasted_var in
  map fexp forecasted_var.

(** ** The risk and pricing blocks of main (app.py, lines 160-305 and 500) *)

(** [s.iloc[-1]]: the last value; [IndexError] on an empty array. *)
Definition iloc_last (a : list npfloat) : outcome npfloat :=
  match a with
  | [] => Raised IndexError
  | _ => Returned (last a NaN)
  end.

(** [df.std().values[0]]: the sample standard deviation, with one delta
    degree of freedom, of the values that are not [nan]: the square root of
    the sum of the squared deviations from the mean over [count - 1]; [nan]
    when fewer than two values are left. *)
Definition df_std (df : Frame) : npfloat :=
  let v := filter (fun x => negb (isnan x)) (to_numpy df) in
  match v with
  | [] | [_] => NaN
  | _ =>
      let avg := fdiv (fsum v) (Fin (INR (length v))) in
      let sqr := map (fun x => fmul (fsub avg x) (fsub avg x)) v in
      fsqrt (fdiv (fsum sqr) (Fin (INR (length v - 1))))
  end.

(** Lines 160-167: the log-returns of the closing prices and their rolling
    sums. *)
Definition main_returns (close : Frame) (rolling_window : nat)
  : outcome (Frame * Frame) :=
  log_returns <- get_log_returns close ;;
  let sum_log_returns := dropna (rolling_sum rolling_window log_returns) in
  Returned (log_returns, sum_log_returns).

(** What the "Historical Var" block computes and writes. *)
Record historical_report : Type := {
  value_at_risk : npfloat;
  expected_shortfall : npfloat;
  value_at_risk_percent : npfloat;
  expected_shortfall_percent : npfloat
}.

(** Lines 188-213: the 5% quantile and tail mean of the rolling sums, turned
    into price ratios by [np.exp] and into the percentages
    [(1 - ratio) * 100] that are written out. *)
Definition main_historical_var (sum_log_returns : Frame)
  : outcome historical_report :=
  log_value_at_risk <- np_quantile (to_numpy sum_log_returns) (5 / 100) ;;
  let value_at_risk := fexp log_value_at_risk in
  let log_expected_shortfall :=
    df_mean (rows_le log_value_at_risk sum_log_returns) in
  let expected_shortfall := fexp log_expected_shortfall in
  Returned {| value_at_risk := value_at_risk;
              expected_shortfall := expected_shortfall;
              value_at_risk_percent :=
                fmul (fsub (Fin 1) value_at_risk) (Fin 100);
              expected_shortfall_percent :=
                fmul (fsub (Fin 1) expected_shortfall) (Fin 100) |}.

(** Lines 227-246: the drift and the volatility are the mean and the
    standard deviation of the log-returns, the horizon is the rolling window,
    and the percentages written out are [100 - exp(x) * 100]. *)
Definition main_monte_carlo_var (draw : nat -> nat -> R) (log_returns : Frame)
  (rolling_window simulations : nat)
  : outcome (npfloat * npfloat * npfloat * npfloat) :=
  let daily_vol := df_std log_returns in
  let mu_sample := df_mean log_returns in
  result <- MonteCarloVar draw mu_sample daily_vol (Fin 1) rolling_window
              simulations (5 / 100) ;;
  let MC_var := snd (fst result) in
  let MC_cvar := snd result in
  Returned (MC_var, MC_cvar,
            fsub (Fin 100) (fmul (fexp MC_var) (Fin 100)),
            fsub (Fin 100) (fmul (fexp MC_cvar) (Fin 100))).

(** Lines 270-298: the annualised volatility [daily_vol * sqrt(252)], the
    rate entered in percent, the expiry entered in months, and the two
    prices at the last close. *)
Definition main_option_prices (close log_returns : Frame) (strike_price : npfloat)
  (rate_input : npfloat) (time_to_expiration : nat)
  : outcome (npfloat * npfloat) :=
  let daily_vol := df_std log_returns in
  let annual_vol := fmul daily_vol (fsqrt (Fin 252)) in
  let rate := fdiv rate_input (Fin 100) in
  let delta_t := fdiv (Fin (INR time_to_expiration)) (Fin 12) in
  last_close <- iloc_last (to_numpy close) ;;
  call_price <- call_black_scholes last_close strike_price annual_vol rate delta_t ;;
  put_price <- put_black_scholes last_close strike_price annual_vol rate delta_t ;;
  Returned (call_price, put_price).

(** Lines 160-246 in order: the returns, the "Historical Var" block and the
    "Monte Carlo Var" block; an exception in one block stops the run before
    the next. *)
Definition main_risk_blocks (draw : nat -> nat -> R) (close : Frame)
  (rolling_window simulations : nat)
  : outcome (historical_report * (npfloat * npfloat * npfloat * npfloat)) :=
  returns <- main_returns close rolling_window ;;
  let log_returns := fst returns in
  let sum_log_returns := snd returns in
  historical <- main_historical_var sum_log_returns ;;
  monte_carlo <- main_monte_carlo_var draw log_returns rolling_window simulations ;;
  Returned (historical, monte_carlo).

(** Line 500: the most recent forecast VaR. *)
Definition most_recent_forecasted_var (forcasted : list npfloat) : outcome npfloat :=
  iloc_last (forecasted_var forcasted).

(** ** Reference definitions on real numbers

    The specification speaks of finite samples; these are its notions, stated
    on reals, against which the embedded code is compared. *)

(** A frame whose values are all finite. *)
Definition finite_frame (rows : list (Timestamp * R)) : Frame :=
  map (fun row => (fst row, Fin (snd row))) rows.

(** PriceSeries: every price is strictly positive. *)
Definition positive_prices (prices : list (Timestamp * R)) : Prop :=
  Forall (fun row => 0 < snd row) prices.

(** LogReturnSeries: [ln (price[i+1] / price[i])] at the label of row [i]. *)
Fixpoint log_return_series (prices : list (Timestamp * R)) : list (Timestamp * R) :=
  match prices with
  | (t, x) :: (((_, y) :: _) as rest) => (t, ln (y / x)) :: log_return_series rest
  | _ => []
  end.

Definition Rsum (l : list R) : R := fold_right Rplus 0 l.

(** RollingSumSeries: the sums of [w] consecutive values, one for each
    position at which a full trailing window exists, labelled by the last row
    of the window. *)
Definition rolling_sum_series (w : nat) (s : list (Timestamp * R))
  : list (Timestamp * R) :=
  map (fun k => (fst (nth (k + w - 1) s (0%Z, 0)),
                 Rsum (firstn w (skipn k (map snd s)))))
    (seq 0 (length s + 1 - w)).

(** Type-7 quantile of the order statistics [s] (a sorted sample): with
    [h = (n - 1) p], the value [s_j + (h - j) (s_(j+1) - s_j)] at
    [j = floor h]. *)
Definition quantile_type7 (s : list R) (p : R) : R :=
  let h := INR (length s - 1) * p in
  let j := floor_nat h in
  nth j s 0 + (h - INR j) * (nth (j + 1) s 0 - nth j s 0).

(** Arithmetic mean. *)
Definition Rmean (l : list R) : R := Rsum l / INR (length l).

(** The values of a sample that are at most [v]. *)
Definition at_most (v : R) (l : list R) : list R := filter (fun x => Rleb x v) l.

(** A sample put in increasing order, by insertion. *)
Fixpoint Rinsert (x : R) (l : list R) : list R :=
  match l with
  | [] => [x]
  | y :: l' => if Rleb x y then x :: l else y :: Rinsert x l'
  end.

Definition Rsort (l : list R) : list R := fold_right Rinsert [] l.

(** RiskEstimate of a finite sample: [var], the type-7 quantile of the
    sorted sample, and [cvar], the mean of the values at or below [var]. *)
Definition sample_var (sample : list R) (p : R) : R :=
  quantile_type7 (Rsort sample) p.

Definition sample_cvar (sample : list R) (p : R) : R :=
  Rmean (at_most (sample_var sample p) sample).

(** The sample of the historical estimator: the rolling sums of the
    log-returns. *)
Definition historical_sample (prices : list (Timestamp * R)) (w : nat) : list R :=
  map snd (rolling_sum_series w (log_return_series prices)).

(** SimulationBatch: for each path the sum of [periods] draws, each
    [mu * dT + vol * sqrt dT * z]. *)
Definition mc_sample (draw : nat -> nat -> R) (mu vol dT : R)
  (periods simulations : nat) : list R :=
  map (fun i => Rsum (map (fun j => mu * dT + vol * sqrt dT * draw i j) (seq 0 periods)))
    (seq 0 simulations).

(** The batch as rows over the default index. *)
Definition mc_rows (sample : list R) : list (Timestamp * R) :=
  combine (map Z.of_nat (seq 0 (length sample))) sample.

(** The Black-Scholes call price of the specification. *)
Definition bs_d1 (S0 K sigma r T : R) : R :=
  (ln (S0 / K) + (r + 1 / 2 * (sigma * sigma)) * T) / (sigma * sqrt T).

Definition bs_d2 (S0 K sigma r T : R) : R :=
  bs_d1 S0 K sigma r T - sigma * sqrt T.

Definition bs_call (S0 K sigma r T : R) : R :=
  S0 * Phi (bs_d1 S0 K sigma r T) - K * exp (- (r * T)) * Phi (bs_d2 S0 K sigma r T).

(** ** Auxiliary definitions *)

(** What [get_log_returns] computes on any frame, in closed form: the
    logarithm of the ratio of each value to the one before it, at the label
    of the earlier row. *)
Fixpoint consecutive_log_ratios (df : Frame) : Frame :=
  match df with
  | (t, x) :: (((_, y) :: _) as rest) =>
      (t, flog (fdiv y x)) :: consecutive_log_ratios rest
  | _ => []
  end.

(** Polynomials of degree five without constant term, and their
    derivatives; the partial sums of the series of [ln (1 + x)] are of this
    form. *)
Definition poly5 (a1 a2 a3 a4 a5 : R) (c : R) : R :=
  a1 * c + a2 * c ^ 2 + a3 * c ^ 3 + a4 * c ^ 4 + a5 * c ^ 5.

Definition poly5' (a1 a2 a3 a4 a5 : R) (c : R) : R :=
  a1 + 2 * a2 * c + 3 * a3 * c ^ 2 + 4 * a4 * c ^ 3 + 5 * a5 * c ^ 4.

(** The daily prices 100, 105, 98, 102, 110 of the specification's scenario. *)
Definition scenario_prices : list (Timestamp * R) :=
  [(0%Z, 100); (1%Z, 105); (2%Z, 98); (3%Z, 102); (4%Z, 110)].

(** Five rows of scaled rolling sums, for a run of the walk-forward loop. *)
Definition toy_frame : Frame :=
  [(0%Z, Fin 1); (1%Z, Fin 2); (2%Z, Fin 3); (3%Z, Fin 4); (4%Z, Fin 5)].

(** Every price multiplied by the same factor. *)
Definition rescale_prices (c : R) (prices : list (Timestamp * R))
  : list (Timestamp * R) :=
  map (fun row => (fst row, c * snd row)) prices.

(** Every value of a sample moved by the same amount. *)
Definition shift_sample (c : R) (l : list R) : list R := map (fun x => x + c) l.

(** An estimator for runs on small frames: the fitted model is the number of
    observations, and the variance it forecasts is that number. *)
Definition counting_fit (y : list npfloat) (p q : nat) : outcome nat :=
  Returned (length y).

Definition counting_forecast (m : nat) : outcome npfloat :=
  Returned (Fin (INR m)).

(** The spread of a finite sample: its sum of squared deviations from the
    mean over [n - 1], and the square root of that. *)
Definition Rvariance (l : list R) : R :=
  Rsum (map (fun x => (Rmean l - x) * (Rmean l - x)) l) / INR (length l - 1).

Definition Rstd (l : list R) : R := sqrt (Rvariance l).

(** * Properties *)

(** ** Comparisons *)

Lemma Rcompare_lt (x y : R) : x < y -> Rcompare x y = Lt.
Proof. intros H. destruct (Rcompare_spec x y); auto; lra. Qed.

Lemma Rcompare_gt (x y : R) : y < x -> Rcompare x y = Gt.
Proof. intros H. destruct (Rcompare_spec x y); auto; lra. Qed.

Lemma Rcompare_eq (x : R) : Rcompare x x = Eq.
Proof. destruct (Rcompare_spec x x); auto; lra. Qed.

Lemma Rleb_true (x y : R) : x <= y -> Rleb x y = true.
Proof. intros H. unfold Rleb. destruct (Rcompare_spec x y); auto; lra. Qed.

Lemma Rleb_false (x y : R) : y < x -> Rleb x y = false.
Proof. intros H. unfold Rleb. rewrite Rcompare_gt; auto. Qed.

Lemma Rleb_le (x y : R) : Rleb x y = true <-> x <= y.
Proof.
  unfold Rleb. destruct (Rcompare_spec x y); split; intros; try lra; auto.
Qed.

Lemma fle_Fin (x y : R) : fle (Fin x) (Fin y) = Rleb x y.
Proof. reflexivity. Qed.

(** Decides the comparisons of the goal that linear arithmetic settles. *)
Ltac rcompare :=
  repeat match goal with
  | |- context [Rcompare ?a ?b] =>
      first [ rewrite (Rcompare_lt a b) by lra
            | rewrite (Rcompare_gt a b) by lra
            | replace (Rcompare a b) with Eq
                by (symmetry; destruct (Rcompare_spec a b); auto; lra) ]
  end.

(** ** get_log_returns *)

Lemma removelast_cons2 {A : Type} (x y : A) (l : list A) :
  removelast (x :: y :: l) = x :: removelast (y :: l).
Proof. reflexivity. Qed.

Lemma fdiv_flog_pos (x y : R) :
  0 < x -> 0 < y -> flog (fdiv (Fin y) (Fin x)) = Fin (ln (y / x)).
Proof.
  intros Hx Hy. simpl. rewrite (Rcompare_gt x 0) by lra. simpl.
  rewrite Rcompare_gt; auto.
  apply Rdiv_lt_0_compat; auto.
Qed.

Lemma map_snd_combine {A B : Type} (l : list A) (l' : list B) :
  length l = length l' -> map snd (combine l l') = l'.
Proof.
  revert l'. induction l as [|a l IH]; destruct l' as [|b l']; simpl; intros H;
    try discriminate; auto.
  f_equal. apply IH. lia.
Qed.

Lemma map_fst_combine {A B : Type} (l : list A) (l' : list B) :
  length l = length l' -> map fst (combine l l') = l.
Proof.
  revert l'. induction l as [|a l IH]; destruct l' as [|b l']; simpl; intros H;
    try discriminate; auto.
  f_equal. apply IH. lia.
Qed.

Lemma length_removelast {A : Type} (l : list A) :
  length (removelast l) = (length l - 1)%nat.
Proof.
  induction l as [|a [|b l] IH]; simpl in *; auto. lia.
Qed.

(** The values of the shifted frame. *)
Lemma to_numpy_shift1 (t : Timestamp) (v : npfloat) (df : Frame) :
  to_numpy (shift1 ((t, v) :: df)) = NaN :: removelast (v :: to_numpy df).
Proof.
  unfold shift1, to_numpy, index. apply map_snd_combine.
  pose proof (length_removelast (v :: map snd df)) as H.
  cbn [length map] in *. rewrite H, !length_map. lia.
Qed.

(** The ratios to the shifted column, once the first (undefined) one is
    dropped. *)
Lemma log_ratio_tail (t : Timestamp) (x : npfloat) (rest : Frame) :
  combine (removelast (t :: index rest))
    (map flog (zip_with fdiv (to_numpy rest) (removelast (x :: to_numpy rest))))
  = consecutive_log_ratios ((t, x) :: rest).
Proof.
  revert t x. induction rest as [|[u y] rest IH]; intros t x.
  - reflexivity.
  - cbn [map fst snd index to_numpy] in *.
    rewrite !removelast_cons2.
    cbn [zip_with map combine].
    exact (f_equal (cons (t, flog (fdiv y x))) (IH u y)).
Qed.

(** [get_log_returns] raises nothing: on every frame it returns the
    consecutive log-ratios. *)
Lemma get_log_returns_eq (df : Frame) :
  get_log_returns df = Returned (consecutive_log_ratios df).
Proof.
  unfold get_log_returns.
  destruct df as [|[t x] rest]; [reflexivity|].
  f_equal.
  rewrite <- (log_ratio_tail t x rest).
  rewrite to_numpy_shift1.
  reflexivity.
Qed.

Lemma consecutive_log_ratios_finite (prices : list (Timestamp * R)) :
  positive_prices prices ->
  consecutive_log_ratios (finite_frame prices)
  = finite_frame (log_return_series prices).
Proof.
  induction prices as [|[t x] [|[u y] rest] IH]; intros Hpos; auto.
  inversion Hpos as [|? ? Hx Hrest]; subst.
  inversion Hrest as [|? ? Hy _]; subst. simpl in Hx, Hy.
  change (consecutive_log_ratios (finite_frame ((t, x) :: (u, y) :: rest)))
    with ((t, flog (fdiv (Fin y) (Fin x)))
            :: consecutive_log_ratios (finite_frame ((u, y) :: rest))).
  rewrite fdiv_flog_pos, (IH Hrest) by assumption.
  reflexivity.
Qed.

(** On strictly positive prices the transform returns the log-return series. *)
Lemma get_log_returns_finite (prices : list (Timestamp * R)) :
  positive_prices prices ->
  get_log_returns (finite_frame prices)
  = Returned (finite_frame (log_return_series prices)).
Proof.
  intros Hpos.
  rewrite get_log_returns_eq, consecutive_log_ratios_finite by assumption.
  reflexivity.
Qed.

(** ** Bounds on the logarithm near one

    [ln (1 + x)] lies between the partial sums of its series of degree four
    and five, for [x >= 0]; each bound follows from the sign of a derivative
    by the mean value theorem. *)

Lemma derivable_pt_lim_monomial (a : R) (n : nat) (c : R) :
  derivable_pt_lim (fun x => a * x ^ n) c (a * (INR n * c ^ pred n)).
Proof.
  apply (derivable_pt_lim_scal (fun x => x ^ n) a c).
  apply derivable_pt_lim_pow.
Qed.

Lemma derivable_pt_lim_poly5 (a1 a2 a3 a4 a5 c : R) :
  derivable_pt_lim (poly5 a1 a2 a3 a4 a5) c (poly5' a1 a2 a3 a4 a5 c).
Proof.
  pose proof (derivable_pt_lim_monomial a1 1 c) as H1.
  pose proof (derivable_pt_lim_monomial a2 2 c) as H2.
  pose proof (derivable_pt_lim_monomial a3 3 c) as H3.
  pose proof (derivable_pt_lim_monomial a4 4 c) as H4.
  pose proof (derivable_pt_lim_monomial a5 5 c) as H5.
  pose proof (derivable_pt_lim_plus _ _ _ _ _
                (derivable_pt_lim_plus _ _ _ _ _
                   (derivable_pt_lim_plus _ _ _ _ _
                      (derivable_pt_lim_plus _ _ _ _ _ H1 H2) H3) H4) H5) as H.
  unfold plus_fct in H.
  replace (poly5' a1 a2 a3 a4 a5 c)
    with (a1 * (INR 1 * c ^ pred 1) + a2 * (INR 2 * c ^ pred 2)
          + a3 * (INR 3 * c ^ pred 3) + a4 * (INR 4 * c ^ pred 4)
          + a5 * (INR 5 * c ^ pred 5))
    by (unfold poly5'; simpl; ring).
  intros eps Heps. destruct (H eps Heps) as [delta Hd].
  exists delta. intros h Hh Hlt. specialize (Hd h Hh Hlt).
  unfold poly5. replace (a1 * (c + h)) with (a1 * (c + h) ^ 1) by ring.
  replace (a1 * c) with (a1 * c ^ 1) by ring. exact Hd.
Qed.

Lemma derivable_pt_lim_ln1p (c : R) :
  0 <= c -> derivable_pt_lim (fun x => ln (1 + x)) c (/ (1 + c)).
Proof.
  intros Hc.
  pose proof (derivable_pt_lim_comp (fun x => 1 + x) ln c 1 (/ (1 + c))) as H.
  unfold comp in H. rewrite Rmult_1_r in H. apply H.
  - pose proof (derivable_pt_lim_plus (fun _ => 1) id c 0 1
                  (derivable_pt_lim_const 1 c) (derivable_pt_lim_id c)) as H1.
    unfold plus_fct, id in H1. rewrite Rplus_0_l in H1. exact H1.
  - apply derivable_pt_lim_ln. lra.
Qed.

(** A polynomial that vanishes at 0 and grows at least as fast as
    [ln (1 + x)] dominates it on the non-negative reals. *)
Lemma ln1p_le_poly5 (a1 a2 a3 a4 a5 : R) :
  (forall c, 0 < c -> / (1 + c) <= poly5' a1 a2 a3 a4 a5 c) ->
  forall x, 0 <= x -> ln (1 + x) <= poly5 a1 a2 a3 a4 a5 x.
Proof.
  intros Hd x Hx.
  destruct (Req_dec x 0) as [->|Hne].
  - rewrite Rplus_0_r, ln_1. unfold poly5. lra.
  - destruct (MVT_cor2 (fun c => poly5 a1 a2 a3 a4 a5 c - ln (1 + c))
                (fun c => poly5' a1 a2 a3 a4 a5 c - / (1 + c)) 0 x)
      as [c [Heq Hc]].
    + lra.
    + intros c Hc.
      apply (derivable_pt_lim_minus (poly5 a1 a2 a3 a4 a5) (fun c => ln (1 + c))).
      * apply derivable_pt_lim_poly5.
      * apply derivable_pt_lim_ln1p. lra.
    + rewrite Rplus_0_r, ln_1 in Heq.
      assert (H0 : poly5 a1 a2 a3 a4 a5 0 = 0) by (unfold poly5; ring).
      rewrite H0 in Heq.
      assert (0 <= (poly5' a1 a2 a3 a4 a5 c - / (1 + c)) * (x - 0)).
      { apply Rmult_le_pos; [|lra]. specialize (Hd c (proj1 Hc)). lra. }
      lra.
Qed.

Lemma poly5_le_ln1p (a1 a2 a3 a4 a5 : R) :
  (forall c, 0 < c -> poly5' a1 a2 a3 a4 a5 c <= / (1 + c)) ->
  forall x, 0 <= x -> poly5 a1 a2 a3 a4 a5 x <= ln (1 + x).
Proof.
  intros Hd x Hx.
  destruct (Req_dec x 0) as [->|Hne].
  - rewrite Rplus_0_r, ln_1. unfold poly5. lra.
  - destruct (MVT_cor2 (fun c => ln (1 + c) - poly5 a1 a2 a3 a4 a5 c)
                (fun c => / (1 + c) - poly5' a1 a2 a3 a4 a5 c) 0 x)
      as [c [Heq Hc]].
    + lra.
    + intros c Hc.
      apply (derivable_pt_lim_minus (fun c => ln (1 + c)) (poly5 a1 a2 a3 a4 a5)).
      * apply derivable_pt_lim_ln1p. lra.
      * apply derivable_pt_lim_poly5.
    + rewrite Rplus_0_r, ln_1 in Heq.
      assert (H0 : poly5 a1 a2 a3 a4 a5 0 = 0) by (unfold poly5; ring).
      rewrite H0 in Heq.
      assert (0 <= (/ (1 + c) - poly5' a1 a2 a3 a4 a5 c) * (x - 0)).
      { apply Rmult_le_pos; [|lra]. specialize (Hd c (proj1 Hc)). lra. }
      lra.
Qed.

Lemma ln1p_upper (x : R) :
  0 <= x -> ln (1 + x) <= poly5 1 (- (1 / 2)) (1 / 3) (- (1 / 4)) (1 / 5) x.
Proof.
  apply ln1p_le_poly5. intros c Hc.
  assert (Hpos : 0 < 1 + c) by lra.
  apply (Rmult_le_reg_l (1 + c)); [assumption|].
  rewrite Rinv_r by lra. unfold poly5'.
  assert (H5 : 0 < c ^ 5) by (apply pow_lt; assumption).
  replace ((1 + c) * (1 + 2 * - (1 / 2) * c + 3 * (1 / 3) * c ^ 2
                      + 4 * - (1 / 4) * c ^ 3 + 5 * (1 / 5) * c ^ 4))
    with (1 + c ^ 5) by field.
  lra.
Qed.

Lemma ln1p_lower (x : R) :
  0 <= x -> poly5 1 (- (1 / 2)) (1 / 3) (- (1 / 4)) 0 x <= ln (1 + x).
Proof.
  apply poly5_le_ln1p. intros c Hc.
  assert (Hpos : 0 < 1 + c) by lra.
  apply (Rmult_le_reg_l (1 + c)); [assumption|].
  rewrite Rinv_r by lra. unfold poly5'.
  assert (H4 : 0 < c ^ 4) by (apply pow_lt; assumption).
  replace ((1 + c) * (1 + 2 * - (1 / 2) * c + 3 * (1 / 3) * c ^ 2
                      + 4 * - (1 / 4) * c ^ 3 + 5 * 0 * c ^ 4))
    with (1 - c ^ 4) by field.
  lra.
Qed.

(** ** The log-return series, value by value *)

Lemma length_log_return_series (prices : list (Timestamp * R)) :
  length (log_return_series prices) = (length prices - 1)%nat.
Proof.
  induction prices as [|[t x] [|[u y] rest] IH]; auto.
  change (log_return_series ((t, x) :: (u, y) :: rest))
    with ((t, ln (y / x)) :: log_return_series ((u, y) :: rest)).
  simpl length in *. rewrite IH. lia.
Qed.

Lemma nth_log_return_series (prices : list (Timestamp * R)) (i : nat) :
  (i + 1 < length prices)%nat ->
  nth i (log_return_series prices) (0%Z, 0)
  = (fst (nth i prices (0%Z, 0)),
     ln (snd (nth (i + 1) prices (0%Z, 0)) / snd (nth i prices (0%Z, 0)))).
Proof.
  revert i. induction prices as [|[t x] [|[u y] rest] IH]; intros i Hi.
  - simpl in Hi. lia.
  - simpl in Hi. lia.
  - change (log_return_series ((t, x) :: (u, y) :: rest))
      with ((t, ln (y / x)) :: log_return_series ((u, y) :: rest)).
    destruct i as [|i].
    + reflexivity.
    + change (nth (S i) ((t, ln (y / x)) :: log_return_series ((u, y) :: rest)) (0%Z, 0))
        with (nth i (log_return_series ((u, y) :: rest)) (0%Z, 0)).
      rewrite IH by (simpl in *; lia). reflexivity.
Qed.

Lemma scenario_prices_positive : positive_prices scenario_prices.
Proof. unfold scenario_prices. repeat constructor; simpl; lra. Qed.

Lemma ln_105_100 : 4879 / 100000 < ln (105 / 100) < 48791 / 1000000.
Proof.
  replace (105 / 100) with (1 + 1 / 20) by field.
  pose proof (ln1p_upper (1 / 20)) as Hu. pose proof (ln1p_lower (1 / 20)) as Hl.
  unfold poly5 in *. lra.
Qed.

Lemma ln_98_105 : - (68993 / 1000000) < ln (98 / 105) < - (68992 / 1000000).
Proof.
  replace (98 / 105) with (/ (1 + 1 / 14)) by field.
  rewrite ln_Rinv by lra.
  pose proof (ln1p_upper (1 / 14)) as Hu. pose proof (ln1p_lower (1 / 14)) as Hl.
  unfold poly5 in *. lra.
Qed.

Lemma ln_102_98 : 40005 / 1000000 < ln (102 / 98) < 40006 / 1000000.
Proof.
  replace (102 / 98) with (1 + 2 / 49) by field.
  pose proof (ln1p_upper (2 / 49)) as Hu. pose proof (ln1p_lower (2 / 49)) as Hl.
  unfold poly5 in *. lra.
Qed.

Lemma ln_110_102 : 75506 / 1000000 < ln (110 / 102) < 75509 / 1000000.
Proof.
  replace (110 / 102) with (1 + 4 / 51) by field.
  pose proof (ln1p_upper (4 / 51)) as Hu. pose proof (ln1p_lower (4 / 51)) as Hl.
  unfold poly5 in *. lra.
Qed.

(** C2 (amended).  On every series of strictly positive prices
    [get_log_returns] returns a series one row shorter, whose [i]-th value is
    [ln (price[i+1] / price[i])] at the label of row [i]; on the prices
    100, 105, 98, 102, 110 its four values are, to within [10^-5],
    0.04879, -0.06899, 0.04000 and 0.07551. *)
Theorem get_log_returns_spec :
  (forall prices : list (Timestamp * R),
      positive_prices prices ->
      exists returns : list (Timestamp * R),
        get_log_returns (finite_frame prices) = Returned (finite_frame returns)
        /\ length returns = (length prices - 1)%nat
        /\ forall i : nat,
            (i + 1 < length prices)%nat ->
            nth i returns (0%Z, 0)
            = (fst (nth i prices (0%Z, 0)),
               ln (snd (nth (i + 1) prices (0%Z, 0)) / snd (nth i prices (0%Z, 0)))))
  /\ exists r0 r1 r2 r3 : R,
      get_log_returns (finite_frame scenario_prices)
      = Returned (finite_frame [(0%Z, r0); (1%Z, r1); (2%Z, r2); (3%Z, r3)])
      /\ Rabs (r0 - 4879 / 100000) < 1 / 100000
      /\ Rabs (r1 - - (6899 / 100000)) < 1 / 100000
      /\ Rabs (r2 - 4000 / 100000) < 1 / 100000
      /\ Rabs (r3 - 7551 / 100000) < 1 / 100000.
Proof.
  split.
  - intros prices Hpos. exists (log_return_series prices).
    split; [apply get_log_returns_finite; assumption|].
    split; [apply length_log_return_series|].
    intros i Hi. apply nth_log_return_series; assumption.
  - exists (ln (105 / 100)), (ln (98 / 105)), (ln (102 / 98)), (ln (110 / 102)).
    split; [exact (get_log_returns_finite _ scenario_prices_positive)|].
    pose proof ln_105_100. pose proof ln_98_105.
    pose proof ln_102_98. pose proof ln_110_102.
    repeat split; apply Rabs_def1; lra.
Qed.

(** The general part of [get_log_returns_spec] at the scenario prices. *)
Lemma get_log_returns_spec_witness :
  exists returns : list (Timestamp * R),
    get_log_returns (finite_frame scenario_prices) = Returned (finite_frame returns)
    /\ length returns = 4%nat.
Proof.
  destruct (proj1 get_log_returns_spec scenario_prices scenario_prices_positive)
    as [returns [Hret [Hlen _]]].
  exists returns. split; [exact Hret | exact Hlen].
Defined.

(** C2, as stated: the second and fourth values the specification quotes for
    the scenario, -0.06841 and 0.07554, are not the values returned; the
    second is off by more than [5 * 10^-4], the fourth by more than
    [3 * 10^-5]. *)
Lemma scenario_returns_differ :
  exists r0 r1 r2 r3 : R,
    get_log_returns (finite_frame scenario_prices)
    = Returned (finite_frame [(0%Z, r0); (1%Z, r1); (2%Z, r2); (3%Z, r3)])
    /\ 5 / 10000 < Rabs (r1 - - (6841 / 100000))
    /\ 3 / 100000 < Rabs (r3 - 7554 / 100000).
Proof.
  exists (ln (105 / 100)), (ln (98 / 105)), (ln (102 / 98)), (ln (110 / 102)).
  split; [exact (get_log_returns_finite _ scenario_prices_positive)|].
  pose proof ln_98_105. pose proof ln_110_102.
  split.
  - rewrite Rabs_left by lra. lra.
  - rewrite Rabs_left by lra. lra.
Qed.

(** ** get_log_returns on inputs the specification rejects *)

Lemma length_consecutive_log_ratios (df : Frame) :
  length (consecutive_log_ratios df) = (length df - 1)%nat.
Proof.
  induction df as [|[t x] [|[u y] rest] IH]; auto.
  change (consecutive_log_ratios ((t, x) :: (u, y) :: rest))
    with ((t, flog (fdiv y x)) :: consecutive_log_ratios ((u, y) :: rest)).
  simpl length in *. rewrite IH. lia.
Qed.

Lemma nth_error_consecutive_log_ratios (df : Frame) (i : nat)
  (t u : Timestamp) (x y : npfloat) :
  nth_error df i = Some (t, x) ->
  nth_error df (S i) = Some (u, y) ->
  nth_error (consecutive_log_ratios df) i = Some (t, flog (fdiv y x)).
Proof.
  revert i. induction df as [|[t0 x0] [|[u0 y0] rest] IH]; intros i Hi HSi.
  - destruct i; discriminate.
  - destruct i as [|[|i]]; discriminate.
  - change (consecutive_log_ratios ((t0, x0) :: (u0, y0) :: rest))
      with ((t0, flog (fdiv y0 x0)) :: consecutive_log_ratios ((u0, y0) :: rest)).
    destruct i as [|i].
    + simpl in Hi, HSi. inversion Hi; inversion HSi; subst. reflexivity.
    + simpl nth_error in *. apply IH; assumption.
Qed.

(** C9 (amended).  [get_log_returns] validates nothing and raises nothing:
    on every frame it returns a series of [len - 1] rows (none when the frame
    has fewer than two), and where a positive price is followed by a
    non-positive one the row holds [-inf] (zero price) or [nan] (negative
    price) instead of a log-return. *)
Theorem get_log_returns_never_raises :
  forall df : Frame,
    exists returns : Frame,
      get_log_returns df = Returned returns
      /\ length returns = (length df - 1)%nat
      /\ ((length df < 2)%nat -> returns = [])
      /\ forall (i : nat) (t u : Timestamp) (x y : R),
          nth_error df i = Some (t, Fin x) ->
          nth_error df (S i) = Some (u, Fin y) ->
          0 < x ->
          (y = 0 -> nth_error returns i = Some (t, NInf))
          /\ (y < 0 -> nth_error returns i = Some (t, NaN)).
Proof.
  intros df. exists (consecutive_log_ratios df).
  split; [apply get_log_returns_eq|].
  split; [apply length_consecutive_log_ratios|].
  split.
  - intros Hlen. destruct df as [|[t x] [|[u y] rest]]; auto.
    simpl in Hlen. lia.
  - intros i t u x y Hi HSi Hx.
    rewrite (nth_error_consecutive_log_ratios df i t u (Fin x) (Fin y) Hi HSi).
    split; intros Hy.
    + subst y. simpl. rewrite (Rcompare_gt x 0) by lra.
      replace (0 / x) with 0 by (field; lra).
      simpl. rewrite Rcompare_eq. reflexivity.
    + simpl. rewrite (Rcompare_gt x 0) by lra. simpl.
      rewrite Rcompare_lt; [reflexivity|].
      assert (Hinv : 0 < / x) by (apply Rinv_0_lt_compat; assumption).
      unfold Rdiv. nra.
Qed.

(** [get_log_returns_never_raises] on the prices 100, 0. *)
Lemma get_log_returns_never_raises_witness :
  exists returns : Frame,
    get_log_returns [(0%Z, Fin 100); (1%Z, Fin 0)] = Returned returns
    /\ nth_error returns 0 = Some (0%Z, NInf).
Proof.
  destruct (get_log_returns_never_raises [(0%Z, Fin 100); (1%Z, Fin 0)])
    as [returns [Hrun [_ [_ Hrows]]]].
  exists returns. split; [exact Hrun|].
  apply (proj1 (Hrows 0%nat 0%Z 1%Z 100 0 eq_refl eq_refl ltac:(lra))).
  reflexivity.
Defined.

(** C9, as stated: a single price gives the empty series and not
    [InsufficientDataError]; the prices 100, -5, 3 and 100, 0, 50 give series
    of [nan] and of infinities and not [InvalidDataError]. *)
Lemma get_log_returns_rejects_nothing :
  get_log_returns [(0%Z, Fin 100)] = Returned []
  /\ get_log_returns [(0%Z, Fin 100)] <> Raised InsufficientDataError
  /\ get_log_returns [(0%Z, Fin 100); (1%Z, Fin (- 5)); (2%Z, Fin 3)]
     = Returned [(0%Z, NaN); (1%Z, NaN)]
  /\ get_log_returns [(0%Z, Fin 100); (1%Z, Fin 0); (2%Z, Fin 50)]
     = Returned [(0%Z, NInf); (1%Z, PInf)]
  /\ get_log_returns [(0%Z, Fin 100); (1%Z, Fin (- 5)); (2%Z, Fin 3)]
     <> Raised InvalidDataError.
Proof.
  assert (H1 : flog (fdiv (Fin (- 5)) (Fin 100)) = NaN).
  { simpl. rcompare. simpl. rcompare. reflexivity. }
  assert (H2 : flog (fdiv (Fin 3) (Fin (- 5))) = NaN).
  { simpl. rcompare. simpl. rcompare. reflexivity. }
  assert (H3 : flog (fdiv (Fin 0) (Fin 100)) = NInf).
  { simpl. rcompare. simpl. rcompare. reflexivity. }
  assert (H4 : flog (fdiv (Fin 50) (Fin 0)) = PInf).
  { simpl. rcompare. simpl. rcompare. reflexivity. }
  rewrite !get_log_returns_eq.
  cbn [consecutive_log_ratios]. rewrite H1, H2, H3, H4.
  repeat split; discriminate.
Qed.

(** ** Black-Scholes prices *)

(** Half of the mass of the standard normal law lies below zero. *)
Lemma Phi_0 : Phi 0 = 1 / 2.
Proof.
  unfold Phi. destruct (Rle_dec 0 0) as [H|H].
  - unfold gauss_area. rewrite RiemannInt_P9. lra.
  - exfalso. apply H. lra.
Qed.

(** The code's own arrangement of [d1]: the reciprocal of [sigma * sqrt T]
    times the numerator. *)
Lemma call_black_scholes_finite (S0 K sigma r T : R) :
  0 < S0 -> 0 < K -> 0 < sigma -> 0 < T ->
  call_black_scholes (Fin S0) (Fin K) (Fin sigma) (Fin r) (Fin T)
  = Returned (Fin (bs_call S0 K sigma r T)).
Proof.
  intros HS HK Hsig HT.
  assert (Hsq : 0 < sqrt T) by (apply sqrt_lt_R0; assumption).
  assert (Hden : 0 < sigma * sqrt T) by (apply Rmult_lt_0_compat; assumption).
  assert (Hratio : 0 < S0 / K) by (apply Rdiv_lt_0_compat; assumption).
  unfold call_black_scholes.
  cbn [fsqrt]. rewrite (Rcompare_gt T 0) by assumption.
  cbn [fmul fdiv]. rewrite (Rcompare_gt (sigma * sqrt T) 0) by assumption.
  rewrite (Rcompare_gt K 0) by assumption.
  cbn [flog]. rewrite (Rcompare_gt (S0 / K) 0) by assumption.
  cbn [fadd fmul fsub fneg fexp norm_cdf].
  replace (1 / (sigma * sqrt T)
           * (ln (S0 / K) + T * (r + 1 / 2 * (sigma * sigma))))
    with (bs_d1 S0 K sigma r T)
    by (unfold bs_d1; field; lra).
  replace (- r * T) with (- (r * T)) by ring.
  reflexivity.
Qed.

(** C5.  For S0 > 0, K > 0, sigma > 0, r >= 0 and T > 0,
    [call_black_scholes] returns the Black-Scholes call price
    S0 Phi(d1) - K exp(-rT) Phi(d2) with
    d1 = (ln(S0/K) + (r + sigma^2/2) T) / (sigma sqrt T) and
    d2 = d1 - sigma sqrt T, [Phi] being the standard normal distribution
    function. *)
Theorem call_black_scholes_formula (S0 K sigma r T : R) :
  0 < S0 -> 0 < K -> 0 < sigma -> 0 <= r -> 0 < T ->
  let d1 := (ln (S0 / K) + (r + 1 / 2 * (sigma * sigma)) * T) / (sigma * sqrt T) in
  let d2 := d1 - sigma * sqrt T in
  call_black_scholes (Fin S0) (Fin K) (Fin sigma) (Fin r) (Fin T)
  = Returned (Fin (S0 * Phi d1 - K * exp (- (r * T)) * Phi d2)).
Proof.
  intros HS HK Hsig Hr HT d1 d2.
  rewrite call_black_scholes_finite by assumption.
  reflexivity.
Qed.

(** [call_black_scholes_formula] at spot 100, strike 100, sigma 1, r 0, T 1. *)
Lemma call_black_scholes_formula_witness :
  call_black_scholes (Fin 100) (Fin 100) (Fin 1) (Fin 0) (Fin 1)
  = Returned (Fin (100 * Phi ((ln (100 / 100) + (0 + 1 / 2 * (1 * 1)) * 1) / (1 * sqrt 1))
                   - 100 * exp (- (0 * 1))
                     * Phi ((ln (100 / 100) + (0 + 1 / 2 * (1 * 1)) * 1) / (1 * sqrt 1)
                            - 1 * sqrt 1))).
Proof.
  apply (call_black_scholes_formula 100 100 1 0 1); lra.
Defined.

(** C6.  For S0, K, sigma, r, T > 0 both prices are finite numbers and obey
    put-call parity: call - put = S0 - K exp(-rT). *)
Theorem put_call_parity (S0 K sigma r T : R) :
  0 < S0 -> 0 < K -> 0 < sigma -> 0 < r -> 0 < T ->
  exists call put : R,
    call_black_scholes (Fin S0) (Fin K) (Fin sigma) (Fin r) (Fin T)
    = Returned (Fin call)
    /\ put_black_scholes (Fin S0) (Fin K) (Fin sigma) (Fin r) (Fin T)
       = Returned (Fin put)
    /\ put = call - S0 + K * exp (- (r * T))
    /\ call - put = S0 - K * exp (- (r * T)).
Proof.
  intros HS HK Hsig Hr HT.
  exists (bs_call S0 K sigma r T),
         (bs_call S0 K sigma r T - S0 + K * exp (- (r * T))).
  split; [apply call_black_scholes_finite; assumption|].
  split.
  - unfold put_black_scholes.
    rewrite call_black_scholes_finite by assumption.
    cbn [bind fsub fadd fneg fmul fexp].
    replace (- r * T) with (- (r * T)) by ring.
    reflexivity.
  - split; [reflexivity | ring].
Qed.

(** [put_call_parity] at spot 100, strike 90, sigma 0.2, r 0.01, T 1. *)
Lemma put_call_parity_witness :
  exists call put : R,
    call_black_scholes (Fin 100) (Fin 90) (Fin (1 / 5)) (Fin (1 / 100)) (Fin 1)
    = Returned (Fin call)
    /\ put_black_scholes (Fin 100) (Fin 90) (Fin (1 / 5)) (Fin (1 / 100)) (Fin 1)
       = Returned (Fin put)
    /\ put = call - 100 + 90 * exp (- (1 / 100 * 1))
    /\ call - put = 100 - 90 * exp (- (1 / 100 * 1)).
Proof.
  apply (put_call_parity 100 90 (1 / 5) (1 / 100) 1); lra.
Defined.

(** ** The pricer outside its domain *)

Lemma call_black_scholes_expiry (S0 K sigma r : R) :
  0 < S0 -> 0 < K -> 0 < sigma ->
  call_black_scholes (Fin S0) (Fin K) (Fin sigma) (Fin r) (Fin 0)
  = Returned match Rcompare S0 K with
             | Eq => NaN
             | Gt => Fin (S0 - K)
             | Lt => Fin 0
             end.
Proof.
  intros HS HK Hsig.
  assert (Hratio : 0 < S0 / K) by (apply Rdiv_lt_0_compat; assumption).
  unfold call_black_scholes.
  cbn [fsqrt]. rewrite Rcompare_eq, sqrt_0.
  cbn [fmul]. rewrite (Rmult_0_r sigma).
  cbn [fdiv]. rewrite Rcompare_eq, (Rcompare_gt 1 0) by lra.
  rewrite (Rcompare_gt K 0) by assumption.
  cbn [flog inf_of_sign]. rewrite (Rcompare_gt (S0 / K) 0) by assumption.
  cbn [fadd fmul fneg fexp fsign].
  replace (ln (S0 / K) + 0 * (r + 1 / 2 * (sigma * sigma))) with (ln (S0 / K))
    by ring.
  replace (- r * 0) with 0 by ring. rewrite exp_0.
  destruct (Rcompare_spec S0 K) as [Heq | Hlt | Hgt].
  - subst K. replace (S0 / S0) with 1 by (field; lra).
    rewrite ln_1, Rcompare_eq. reflexivity.
  - assert (Hln : ln (S0 / K) < 0).
    { rewrite <- ln_1. apply ln_increasing; [assumption|].
      apply (Rmult_lt_reg_r K); [assumption|].
      unfold Rdiv. rewrite Rmult_assoc, Rinv_l by lra. lra. }
    rewrite (Rcompare_lt _ 0 Hln).
    cbn [sign_mul inf_of_sign fsub fneg fadd norm_cdf fmul].
    do 2 f_equal. ring.
  - assert (Hln : 0 < ln (S0 / K)).
    { rewrite <- ln_1. apply ln_increasing; [lra|].
      apply (Rmult_lt_reg_r K); [assumption|].
      unfold Rdiv. rewrite Rmult_assoc, Rinv_l by lra. lra. }
    rewrite (Rcompare_gt _ 0 Hln).
    cbn [sign_mul inf_of_sign fsub fneg fadd norm_cdf fmul].
    do 2 f_equal. ring.
Qed.

Lemma call_black_scholes_negative_expiry (S0 K sigma r : npfloat) (T : R) :
  T < 0 -> call_black_scholes S0 K sigma r (Fin T) = Returned NaN.
Proof.
  intros HT. unfold call_black_scholes.
  cbn [fsqrt]. rewrite (Rcompare_lt T 0) by assumption.
  assert (Hvol : fmul sigma NaN = NaN) by (destruct sigma; reflexivity).
  rewrite Hvol. cbn [fdiv fmul fsub fadd fneg norm_cdf].
  destruct S0; reflexivity.
Qed.

(** C8 (amended).  [call_black_scholes] validates nothing: on float64
    arguments it raises no error whatever they are.  With sigma > 0 and
    T = 0 it returns S0 - K when S0 > K, 0 when S0 < K and [nan] when
    S0 = K; with T < 0 it returns [nan]. *)
Theorem call_black_scholes_never_raises :
  (forall S0 K sigma r T : npfloat,
      exists value : npfloat,
        call_black_scholes S0 K sigma r T = Returned value)
  /\ (forall S0 K sigma r : R,
        0 < S0 -> 0 < K -> 0 < sigma ->
        call_black_scholes (Fin S0) (Fin K) (Fin sigma) (Fin r) (Fin 0)
        = Returned match Rcompare S0 K with
                   | Eq => NaN
                   | Gt => Fin (S0 - K)
                   | Lt => Fin 0
                   end)
  /\ (forall (S0 K sigma r : npfloat) (T : R),
        T < 0 -> call_black_scholes S0 K sigma r (Fin T) = Returned NaN).
Proof.
  split; [|split].
  - intros S0 K sigma r T. eexists. reflexivity.
  - apply call_black_scholes_expiry.
  - apply call_black_scholes_negative_expiry.
Qed.

(** [call_black_scholes_never_raises] at expiry, with spot 120 and strike 100. *)
Lemma call_black_scholes_never_raises_witness :
  call_black_scholes (Fin 120) (Fin 100) (Fin (1 / 5)) (Fin (1 / 100)) (Fin 0)
  = Returned match Rcompare 120 100 with
             | Eq => NaN
             | Gt => Fin (120 - 100)
             | Lt => Fin 0
             end.
Proof.
  apply (proj1 (proj2 call_black_scholes_never_raises)); lra.
Defined.

(** C8, as stated: at T = 0, with spot and strike both 100, the pricer
    returns [nan]; it does not fail with [InvalidParameterError]. *)
Lemma call_black_scholes_nan_at_expiry :
  call_black_scholes (Fin 100) (Fin 100) (Fin (1 / 5)) (Fin (1 / 100)) (Fin 0)
  = Returned NaN
  /\ call_black_scholes (Fin 100) (Fin 100) (Fin (1 / 5)) (Fin (1 / 100)) (Fin 0)
     <> Raised InvalidParameterError.
Proof.
  rewrite call_black_scholes_expiry by lra.
  rewrite Rcompare_eq. split; [reflexivity | discriminate].
Qed.

(** ** The walk-forward loop *)

Lemma feqb_eq (a b : npfloat) : feqb a b = true <-> a = b.
Proof.
  destruct a as [x| | |], b as [y| | |]; simpl; split; intros H;
    try discriminate; try reflexivity.
  - destruct (Rcompare_spec x y); try discriminate. subst. reflexivity.
  - inversion H. rewrite Rcompare_eq. reflexivity.
Qed.

(** [equals] holds of two frames exactly when they are the same rows in the
    same order. *)
Lemma frame_equals_eq (a b : Frame) : frame_equals a b = true <-> a = b.
Proof.
  revert b. induction a as [|[t x] a IH]; intros [|[u y] b]; simpl;
    split; intros H; try discriminate; try reflexivity.
  - apply andb_prop in H. destruct H as [H Hab].
    apply andb_prop in H. destruct H as [Htu Hxy].
    apply Z.eqb_eq in Htu. apply feqb_eq in Hxy. apply IH in Hab.
    subst. reflexivity.
  - inversion H; subst.
    rewrite Z.eqb_refl, (proj2 (feqb_eq y y) eq_refl), (proj2 (IH b) eq_refl).
    reflexivity.
Qed.

Lemma firstn_succ_skipn {A : Type} (l : list A) (i n : nat) :
  firstn 1 (skipn i l) ++ firstn n (skipn (S i) l) = firstn (S n) (skipn i l).
Proof.
  revert i. induction l as [|a l IH]; intros i.
  - rewrite !skipn_nil, !firstn_nil. reflexivity.
  - destruct i as [|i].
    + reflexivity.
    + change (skipn (S i) (a :: l)) with (skipn i l).
      change (skipn (S (S i)) (a :: l)) with (skipn (S i) l).
      apply IH.
Qed.

Lemma length_iloc_set (i : nat) (v : npfloat) (a : list npfloat) :
  length (iloc_set i v a) = length a.
Proof.
  revert i. induction a as [|x a IH]; intros [|i]; simpl; auto.
Qed.

Section WalkForward.

Variable ARCHModelResult : Type.
Variable arch_fit : list npfloat -> nat -> nat -> outcome ARCHModelResult.
Variable forecast_variance : ARCHModelResult -> outcome npfloat.
Variable testing : Frame.
Variables p_garch q_garch : nat.

Let step := walk_step ARCHModelResult arch_fit forecast_variance testing p_garch q_garch.

(** Loop invariant: [n] passes from row [i] append rows [i .. i + n - 1] of
    the test frame, in order, and leave the forecast column as long as it
    was. *)
Lemma for_range_walk_step (n i : nat) (st st' : walk_state ARCHModelResult) :
  for_range step i n st = Returned st' ->
  conditional_training_data st'
  = conditional_training_data st ++ firstn n (skipn i testing)
  /\ length (forcasted_values st') = length (forcasted_values st).
Proof.
  revert i st. induction n as [|n IH]; intros i st Hrun.
  - simpl in Hrun. inversion Hrun; subst. rewrite app_nil_r. auto.
  - simpl in Hrun. unfold step at 1, walk_step in Hrun.
    destruct (forecast_variance (model_fit st)) as [prediction|e];
      [|discriminate].
    cbn [bind] in Hrun.
    destruct (arch_fit _ p_garch q_garch) as [fit|e]; [|discriminate].
    cbn [bind] in Hrun.
    apply IH in Hrun. cbn [conditional_training_data forcasted_values] in Hrun.
    destruct Hrun as [Hcond Hlen]. split.
    + rewrite Hcond, <- app_assoc. unfold iloc_slice.
      replace (i + 1 - i)%nat with 1%nat by lia.
      rewrite firstn_succ_skipn. reflexivity.
    + rewrite Hlen. apply length_iloc_set.
Qed.

(** When neither library call raises, the loop runs to its end. *)
Lemma for_range_walk_step_total (n i : nat) (st : walk_state ARCHModelResult) :
  (forall y, exists fit, arch_fit y p_garch q_garch = Returned fit) ->
  (forall fit, exists v, forecast_variance fit = Returned v) ->
  exists st', for_range step i n st = Returned st'.
Proof.
  intros Hfit Hforecast. revert i st.
  induction n as [|n IH]; intros i st.
  - exists st. reflexivity.
  - simpl. unfold step at 1, walk_step.
    destruct (Hforecast (model_fit st)) as [v ->]. cbn [bind].
    match goal with |- context [arch_fit ?y _ _] => destruct (Hfit y) as [fit ->] end.
    cbn [bind]. apply IH.
Qed.

End WalkForward.

Lemma split_point_le (n : nat) : (split_point n <= n)%nat.
Proof.
  unfold split_point.
  apply Nat.Div0.div_le_upper_bound. lia.
Qed.

(** C1.  Whatever the estimator computes, a walk-forward run over the
    80/20 split that comes out of its loop has rebuilt, row for row and in
    order, the concatenation of the training and the test frame, and that is
    the input frame: the assertion after the loop holds and the run returns,
    with one forecast per test row.  The loop does come out when the
    estimator's calls do not raise. *)
Theorem walk_forward_continuity :
  forall (ARCHModelResult : Type)
         (arch_fit : list npfloat -> nat -> nat -> outcome ARCHModelResult)
         (forecast_variance : ARCHModelResult -> outcome npfloat)
         (data : Frame) (p_garch q_garch : nat),
    (forall st,
        walk_loop ARCHModelResult arch_fit forecast_variance data p_garch q_garch
        = Returned st ->
        conditional_training_data st = training_data data ++ testing_data data
        /\ conditional_training_data st = data
        /\ py_assert (frame_equals (conditional_training_data st) data)
           = Returned tt
        /\ length (forcasted_values st) = length (testing_data data)
        /\ walk_forward ARCHModelResult arch_fit forecast_variance data
             p_garch q_garch = Returned st)
    /\ ((forall y, exists fit, arch_fit y p_garch q_garch = Returned fit) ->
        (forall fit, exists v, forecast_variance fit = Returned v) ->
        exists st,
          walk_forward ARCHModelResult arch_fit forecast_variance data
            p_garch q_garch = Returned st).
Proof.
  intros M arch_fit forecast_variance data p q.
  assert (Hsplit : training_data data ++ testing_data data = data)
    by apply firstn_skipn.
  assert (Hloop : forall st,
             walk_loop M arch_fit forecast_variance data p q = Returned st ->
             conditional_training_data st = data
             /\ length (forcasted_values st) = length (testing_data data)).
  { intros st Hrun. unfold walk_loop in Hrun.
    destruct (arch_fit (to_numpy (training_data data)) p q) as [fit0|e];
      [|discriminate].
    cbn [bind] in Hrun.
    apply for_range_walk_step in Hrun. destruct Hrun as [Hcond Hlen].
    cbn [conditional_training_data forcasted_values] in Hcond, Hlen.
    split.
    - rewrite Hcond. change (skipn 0 (testing_data data)) with (testing_data data).
      rewrite firstn_all. exact Hsplit.
    - rewrite Hlen. apply length_map. }
  assert (Hrun_ok : forall st,
             walk_loop M arch_fit forecast_variance data p q = Returned st ->
             walk_forward M arch_fit forecast_variance data p q = Returned st).
  { intros st Hrun. unfold walk_forward. rewrite Hrun. cbn [bind].
    rewrite (proj2 (frame_equals_eq _ _) (proj1 (Hloop st Hrun))).
    reflexivity. }
  split.
  - intros st Hrun. destruct (Hloop st Hrun) as [Hdata Hlen].
    split; [rewrite Hsplit; exact Hdata|].
    split; [exact Hdata|].
    split; [rewrite (proj2 (frame_equals_eq _ _) Hdata); reflexivity|].
    split; [exact Hlen | exact (Hrun_ok st Hrun)].
  - intros Hfit Hforecast.
    assert (Hex : exists st,
               walk_loop M arch_fit forecast_variance data p q = Returned st).
    { unfold walk_loop.
      destruct (Hfit (to_numpy (training_data data))) as [fit0 ->]. cbn [bind].
      apply for_range_walk_step_total; assumption. }
    destruct Hex as [st Hst]. exists st. exact (Hrun_ok st Hst).
Qed.

(** A run of [walk_forward_continuity] on five rows (four for training, one
    for testing) with an estimator that always answers. *)
Lemma walk_forward_continuity_witness :
  exists st,
    walk_loop unit (fun _ _ _ => Returned tt) (fun _ => Returned (Fin 4))
      toy_frame 1 1 = Returned st
    /\ conditional_training_data st = toy_frame
    /\ length (forcasted_values st) = 1%nat.
Proof.
  eexists. split; [reflexivity|].
  destruct (proj1 (walk_forward_continuity unit (fun _ _ _ => Returned tt)
                     (fun _ => Returned (Fin 4)) toy_frame 1 1) _ eq_refl)
    as [_ [Hdata [_ [Hlen _]]]].
  split; [exact Hdata | exact Hlen].
Defined.

(** ** The forecast VaR path *)

(** C3.  The series handed to the estimator is the rolling-sum series times
    1000, and the VaR path is exp((forecast_vol / 1000) * Phi^-1(0.05)):
    the divisor is the constant of the scaling, and dividing by it undoes the
    scaling. *)
Theorem forecasted_var_inverts_scaling :
  exists scale : R,
    scale = 1000
    /\ (forall rows : list (Timestamp * R),
           garch_data (finite_frame rows)
           = finite_frame (map (fun row => (fst row, scale * snd row)) rows))
    /\ (forall vols : list R,
           forecasted_var (map Fin vols)
           = map (fun vol => Fin (exp (vol / scale * Phi_inv (5 / 100)))) vols)
    /\ (forall x : R,
           fdiv (fmul (Fin scale) (Fin x)) (Fin scale) = Fin x).
Proof.
  exists 1000. split; [reflexivity|]. split; [|split].
  - intros rows. unfold garch_data, finite_frame. rewrite !map_map.
    reflexivity.
  - intros vols. unfold forecasted_var. rewrite !map_map.
    apply map_ext. intros vol. cbn [fdiv]. rewrite (Rcompare_gt 1000 0) by lra.
    reflexivity.
  - intros x. cbn [fmul fdiv]. rewrite (Rcompare_gt 1000 0) by lra.
    f_equal. field.
Qed.

(** ** Sorting and order statistics *)

Lemma Rinsert_perm (x : R) (l : list R) : Permutation (x :: l) (Rinsert x l).
Proof.
  induction l as [|y l IH]; simpl; auto.
  destruct (Rleb x y); auto.
  apply perm_trans with (y :: x :: l); [apply perm_swap|].
  apply perm_skip. exact IH.
Qed.

Lemma Rsort_perm (l : list R) : Permutation l (Rsort l).
Proof.
  induction l as [|x l IH]; simpl; auto.
  apply perm_trans with (x :: Rsort l); [apply perm_skip; exact IH|].
  apply Rinsert_perm.
Qed.

Lemma Rinsert_sorted (x : R) (l : list R) :
  StronglySorted Rle l -> StronglySorted Rle (Rinsert x l).
Proof.
  induction l as [|y l IH]; intros Hs; simpl.
  - repeat constructor.
  - inversion Hs as [|? ? Hl Hy]; subst.
    destruct (Rleb x y) eqn:Hxy.
    + apply Rleb_le in Hxy. constructor; [assumption|].
      constructor; [assumption|].
      eapply Forall_impl; [|exact Hy]. intros z Hz. simpl in Hz. lra.
    + assert (Hyx : y <= x).
      { destruct (Rle_dec x y) as [H|H]; [|lra].
        apply Rleb_le in H. congruence. }
      constructor; [apply IH; assumption|].
      apply (Permutation_Forall (Rinsert_perm x l)).
      constructor; assumption.
Qed.

Lemma Rsort_sorted (l : list R) : StronglySorted Rle (Rsort l).
Proof.
  induction l as [|x l IH]; simpl; [constructor|].
  apply Rinsert_sorted. exact IH.
Qed.

Lemma length_Rsort (l : list R) : length (Rsort l) = length l.
Proof. symmetry. apply Permutation_length, Rsort_perm. Qed.

(** In a sorted sample the order statistics grow with their rank. *)
Lemma sorted_nth_le (s : list R) (i j : nat) :
  StronglySorted Rle s -> (i <= j < length s)%nat -> nth i s 0 <= nth j s 0.
Proof.
  intros Hs. revert i j. induction Hs as [|a s Hs IH Ha]; intros i j Hij.
  - simpl in Hij. lia.
  - destruct j as [|j].
    + assert (i = 0%nat) by lia. subst. simpl. lra.
    + destruct i as [|i].
      * simpl. rewrite Forall_forall in Ha. apply Ha, nth_In.
        simpl in Hij. lia.
      * simpl. apply IH. simpl in Hij. lia.
Qed.

(** The code's sort on finite values is the sort on reals. *)
Lemma insert_sorted_Fin (x : R) (l : list R) :
  insert_sorted (Fin x) (map Fin l) = map Fin (Rinsert x l).
Proof.
  induction l as [|y l IH]; simpl; auto.
  fold (Rleb x y). destruct (Rleb x y); simpl; [reflexivity|].
  rewrite IH. reflexivity.
Qed.

Lemma np_sort_Fin (l : list R) : np_sort (map Fin l) = map Fin (Rsort l).
Proof.
  induction l as [|x l IH]; [reflexivity|].
  change (np_sort (map Fin (x :: l)))
    with (insert_sorted (Fin x) (np_sort (map Fin l))).
  rewrite IH. apply insert_sorted_Fin.
Qed.

(** ** The interpolated quantile on a finite sample *)

Lemma floor_nat_spec (x : R) :
  0 <= x -> INR (floor_nat x) <= x < INR (floor_nat x) + 1.
Proof.
  intros Hx. unfold floor_nat.
  destruct (base_Int_part x) as [Hlo Hhi].
  assert (Hz : (0 <= Int_part x)%Z).
  { assert (H : (-1 < Int_part x)%Z) by (apply lt_IZR; lra). lia. }
  rewrite INR_IZR_INZ, Z2Nat.id by assumption. lra.
Qed.

Lemma lerp_Fin (a b t : R) : lerp (Fin a) (Fin b) t = Fin (a + (b - a) * t).
Proof.
  unfold lerp. destruct (Rleb (1 / 2) t); simpl; f_equal; ring.
Qed.

Lemma nth_map_Fin (l : list R) (j : nat) :
  (j < length l)%nat -> nth j (map Fin l) NaN = Fin (nth j l 0).
Proof.
  intros Hj. rewrite (nth_indep _ NaN (Fin 0)) by (rewrite length_map; assumption).
  apply map_nth.
Qed.

Lemma existsb_isnan_Fin (l : list R) : existsb isnan (map Fin l) = false.
Proof. induction l as [|x l IH]; simpl; auto. Qed.

(** Rank of the lower order statistic: it lies within the sample. *)
Lemma quantile_rank_bound (n : nat) (q : R) :
  (1 <= n)%nat -> 0 <= q <= 1 ->
  let h := INR (n - 1) * q in
  (floor_nat h <= n - 1)%nat /\ 0 <= h - INR (floor_nat h) < 1
  /\ (floor_nat h = (n - 1)%nat -> h - INR (floor_nat h) = 0).
Proof.
  intros Hn Hq h.
  assert (Hpos : 0 <= INR (n - 1)) by apply pos_INR.
  assert (Hh : 0 <= h <= INR (n - 1)) by (unfold h; split; nra).
  destruct (floor_nat_spec h (proj1 Hh)) as [Hlo Hhi].
  split; [apply INR_le; lra|]. split; [lra|].
  intros Heq. rewrite Heq in *. lra.
Qed.

(** On a finite non-empty sample [np.quantile] returns the type-7 quantile
    of the sorted sample. *)
Lemma np_quantile_finite (xs : list R) (q : R) :
  xs <> [] -> 0 <= q <= 1 ->
  np_quantile (map Fin xs) q = Returned (Fin (quantile_type7 (Rsort xs) q)).
Proof.
  intros Hne Hq. unfold np_quantile.
  rewrite (Rleb_true 0 q), (Rleb_true q 1) by lra. cbn [andb negb].
  destruct xs as [|x0 xs']; [congruence|].
  set (xs := x0 :: xs') in *.
  change (map Fin xs) with (Fin x0 :: map Fin xs') at 1.
  cbv iota beta.
  rewrite existsb_isnan_Fin, np_sort_Fin, length_map.
  assert (Hn : (1 <= length xs)%nat) by (simpl; lia).
  destruct (quantile_rank_bound (length xs) q Hn Hq) as [Hj [Hg Hlast]].
  unfold quantile_type7. rewrite length_Rsort.
  set (h := INR (length xs - 1) * q) in *.
  set (j := floor_nat h) in *.
  rewrite (nth_map_Fin (Rsort xs) j) by (rewrite length_Rsort; lia).
  destruct (Nat.eq_dec j (length xs - 1)) as [Heq|Hlt].
  - rewrite Nat.min_r by lia. rewrite <- Heq.
    rewrite (nth_map_Fin (Rsort xs) j) by (rewrite length_Rsort; lia).
    rewrite lerp_Fin, (Hlast Heq). do 2 f_equal. ring.
  - rewrite Nat.min_l by lia.
    rewrite (nth_map_Fin (Rsort xs) (j + 1)) by (rewrite length_Rsort; lia).
    rewrite lerp_Fin. do 2 f_equal. ring.
Qed.

(** The type-7 quantile of a sorted sample lies between the two order
    statistics it interpolates, hence between the least and the greatest. *)
Lemma quantile_type7_bounds (s : list R) (q : R) :
  StronglySorted Rle s -> s <> [] -> 0 <= q <= 1 ->
  nth 0 s 0 <= quantile_type7 s q <= nth (length s - 1) s 0.
Proof.
  intros Hs Hne Hq.
  assert (Hn : (1 <= length s)%nat) by (destruct s; [congruence | simpl; lia]).
  destruct (quantile_rank_bound (length s) q Hn Hq) as [Hj [Hg Hlast]].
  unfold quantile_type7.
  set (h := INR (length s - 1) * q) in *.
  set (j := floor_nat h) in *.
  assert (H0j : nth 0 s 0 <= nth j s 0) by (apply sorted_nth_le; [assumption | lia]).
  assert (Hjn : nth j s 0 <= nth (length s - 1) s 0)
    by (apply sorted_nth_le; [assumption | lia]).
  destruct (Nat.eq_dec j (length s - 1)) as [Heq|Hlt].
  - rewrite (Hlast Heq). lra.
  - assert (Hjj : nth j s 0 <= nth (j + 1) s 0)
      by (apply sorted_nth_le; [assumption | lia]).
    assert (Hj1 : nth (j + 1) s 0 <= nth (length s - 1) s 0)
      by (apply sorted_nth_le; [assumption | lia]).
    split; nra.
Qed.

(** ** Sums, means and the rows at or below a bound *)

Lemma fsum_Fin (l : list R) : fsum (map Fin l) = Fin (Rsum l).
Proof.
  induction l as [|x l IH]; [reflexivity|].
  change (fsum (map Fin (x :: l))) with (fadd (Fin x) (fsum (map Fin l))).
  rewrite IH. reflexivity.
Qed.

Lemma to_numpy_finite_frame (rows : list (Timestamp * R)) :
  to_numpy (finite_frame rows) = map Fin (map snd rows).
Proof. unfold to_numpy, finite_frame. rewrite !map_map. reflexivity. Qed.

Lemma index_finite_frame (rows : list (Timestamp * R)) :
  index (finite_frame rows) = map fst rows.
Proof. unfold index, finite_frame. rewrite map_map. reflexivity. Qed.

Lemma rows_le_finite (v : R) (rows : list (Timestamp * R)) :
  rows_le (Fin v) (finite_frame rows)
  = finite_frame (filter (fun row => Rleb (snd row) v) rows).
Proof.
  unfold rows_le, finite_frame.
  induction rows as [|[t x] rows IH]; [reflexivity|].
  cbn [map filter fst snd]. rewrite fle_Fin.
  destruct (Rleb x v); cbn [map fst snd]; rewrite IH; reflexivity.
Qed.

Lemma map_snd_filter_le (v : R) (rows : list (Timestamp * R)) :
  map snd (filter (fun row => Rleb (snd row) v) rows) = at_most v (map snd rows).
Proof.
  unfold at_most. induction rows as [|[t x] rows IH]; [reflexivity|].
  cbn [map filter snd]. destruct (Rleb x v); cbn [map snd]; rewrite IH; reflexivity.
Qed.

Lemma filter_not_nan_Fin (l : list R) :
  filter (fun v => negb (isnan v)) (map Fin l) = map Fin l.
Proof.
  induction l as [|x l IH]; [reflexivity|].
  cbn [map filter isnan negb]. rewrite IH. reflexivity.
Qed.

(** The mean of a finite frame: the arithmetic mean of its values, and [nan]
    when it has no row. *)
Lemma df_mean_finite (rows : list (Timestamp * R)) :
  df_mean (finite_frame rows)
  = match rows with
    | [] => NaN
    | _ => Fin (Rmean (map snd rows))
    end.
Proof.
  unfold df_mean. rewrite to_numpy_finite_frame, filter_not_nan_Fin.
  destruct rows as [|[t x] rows]; [reflexivity|].
  set (l := map snd ((t, x) :: rows)).
  assert (Hlen : 0 < INR (length (map Fin l))).
  { rewrite length_map. unfold l. simpl length. apply lt_0_INR. lia. }
  change (map Fin l) with (Fin x :: map Fin (map snd rows)) at 1.
  cbv iota beta.
  change (Fin x :: map Fin (map snd rows)) with (map Fin l).
  rewrite fsum_Fin. cbn [fdiv]. rewrite (Rcompare_gt _ 0 Hlen).
  rewrite length_map. reflexivity.
Qed.

(** The mean of values that are all at most [v] is at most [v]. *)
Lemma Rsum_le_bound (v : R) (l : list R) :
  (forall x, In x l -> x <= v) -> Rsum l <= v * INR (length l).
Proof.
  induction l as [|x l IH]; intros Hall.
  - simpl. lra.
  - change (Rsum (x :: l)) with (x + Rsum l).
    change (length (x :: l)) with (S (length l)). rewrite S_INR.
    assert (x <= v) by (apply Hall; left; reflexivity).
    assert (Rsum l <= v * INR (length l))
      by (apply IH; intros y Hy; apply Hall; right; assumption).
    lra.
Qed.

Lemma Rmean_le_bound (v : R) (l : list R) :
  l <> [] -> (forall x, In x l -> x <= v) -> Rmean l <= v.
Proof.
  intros Hne Hall. unfold Rmean.
  assert (Hlen : 0 < INR (length l)).
  { apply lt_0_INR. destruct l; [congruence | simpl; lia]. }
  apply (Rmult_le_reg_r (INR (length l))); [assumption|].
  unfold Rdiv. rewrite Rmult_assoc, Rinv_l, Rmult_1_r by lra.
  apply Rsum_le_bound. assumption.
Qed.

Lemma at_most_spec (v x : R) (l : list R) :
  In x (at_most v l) <-> In x l /\ x <= v.
Proof.
  unfold at_most. rewrite filter_In, Rleb_le. reflexivity.
Qed.

(** ** Tail risk of a finite sample

    What both estimators compute once they hold their sample: the type-7
    quantile of the sorted sample and the mean of the values at or below
    it. *)

(** The least value of a non-empty sample is at or below the quantile. *)
Lemma sample_min_at_most (sample : list R) (p : R) :
  sample <> [] -> 0 <= p <= 1 ->
  let lo := nth 0 (Rsort sample) 0 in
  let hi := nth (length sample - 1) (Rsort sample) 0 in
  In lo sample /\ In hi sample
  /\ (forall x, In x sample -> lo <= x <= hi)
  /\ lo <= sample_var sample p <= hi
  /\ In lo (at_most (sample_var sample p) sample).
Proof.
  intros Hne Hp lo hi.
  assert (Hlen : (1 <= length sample)%nat)
    by (destruct sample; [congruence | simpl; lia]).
  assert (Hperm := Rsort_perm sample).
  assert (Hsorted := Rsort_sorted sample).
  assert (Hlo : In lo sample).
  { apply (Permutation_in _ (Permutation_sym Hperm)).
    apply nth_In. rewrite length_Rsort. lia. }
  assert (Hhi : In hi sample).
  { apply (Permutation_in _ (Permutation_sym Hperm)).
    apply nth_In. rewrite length_Rsort. lia. }
  assert (Hne' : Rsort sample <> []).
  { intros Heq. pose proof (length_Rsort sample) as Hl.
    rewrite Heq in Hl. simpl in Hl. lia. }
  pose proof (quantile_type7_bounds (Rsort sample) p Hsorted Hne' Hp) as Hq.
  rewrite length_Rsort in Hq. fold (sample_var sample p) in Hq.
  split; [assumption|]. split; [assumption|]. split.
  - intros x Hx. apply (Permutation_in _ Hperm) in Hx.
    destruct (In_nth _ _ 0 Hx) as [i [Hi Hnth]].
    rewrite length_Rsort in Hi. rewrite <- Hnth. split.
    + apply sorted_nth_le; [assumption | rewrite length_Rsort; lia].
    + apply sorted_nth_le; [assumption | rewrite length_Rsort; lia].
  - split; [exact Hq|]. apply at_most_spec. split; [assumption | exact (proj1 Hq)].
Qed.

Lemma sample_cvar_le_var (sample : list R) (p : R) :
  sample <> [] -> 0 <= p <= 1 -> sample_cvar sample p <= sample_var sample p.
Proof.
  intros Hne Hp. unfold sample_cvar.
  destruct (sample_min_at_most sample p Hne Hp) as [_ [_ [_ [_ Hin]]]].
  apply Rmean_le_bound.
  - intros Heq. rewrite Heq in Hin. destruct Hin.
  - intros x Hx. apply at_most_spec in Hx. tauto.
Qed.

(** Quantile and tail mean of a finite frame, as the code computes them. *)
Lemma tail_risk_finite (rows : list (Timestamp * R)) (p : R) :
  rows <> [] -> 0 <= p <= 1 ->
  np_quantile (to_numpy (finite_frame rows)) p
  = Returned (Fin (sample_var (map snd rows) p))
  /\ df_mean (rows_le (Fin (sample_var (map snd rows) p)) (finite_frame rows))
     = Fin (sample_cvar (map snd rows) p).
Proof.
  intros Hne Hp.
  assert (Hne' : map snd rows <> []) by (destruct rows; [congruence | discriminate]).
  split.
  - rewrite to_numpy_finite_frame. apply np_quantile_finite; assumption.
  - rewrite rows_le_finite, df_mean_finite.
    destruct (sample_min_at_most (map snd rows) p Hne' Hp) as [_ [_ [_ [_ Hin]]]].
    rewrite <- map_snd_filter_le in Hin.
    destruct (filter _ rows) as [|row rows'] eqn:Hf; [destruct Hin|].
    rewrite <- Hf, map_snd_filter_le. reflexivity.
Qed.

(** ** Rolling sums *)

Lemma combine_map_seq {A : Type} (d : Timestamp * R) (f : nat -> A)
  (s : list (Timestamp * R)) (a : nat) :
  combine (map fst s) (map f (seq a (length s)))
  = map (fun i => (fst (nth (i - a) s d), f i)) (seq a (length s)).
Proof.
  revert a. induction s as [|x s IH]; intros a; [reflexivity|].
  cbn [length seq map combine]. rewrite Nat.sub_diag. cbn [nth].
  f_equal. rewrite IH. apply map_ext_in. intros i Hi.
  apply in_seq in Hi.
  replace (i - a)%nat with (S (i - S a)) by lia. reflexivity.
Qed.

(** [dropna] removes the rows before position [w - 1] and no other. *)
Lemma dropna_rolling (w : nat) (label : nat -> Timestamp) (r : nat -> R)
  (n a : nat) :
  dropna (map (fun i => (label i, if (i + 1 <? w)%nat then NaN else Fin (r i)))
            (seq a n))
  = map (fun i => (label i, Fin (r i)))
      (seq (Nat.max a (w - 1)) (a + n - Nat.max a (w - 1))).
Proof.
  revert a. induction n as [|n IH]; intros a.
  - replace (a + 0 - Nat.max a (w - 1))%nat with 0%nat by lia. reflexivity.
  - cbn [seq map]. unfold dropna in *. cbn [filter snd].
    destruct (a + 1 <? w)%nat eqn:Hlt.
    + apply Nat.ltb_lt in Hlt. cbn [isnan negb]. rewrite IH.
      replace (Nat.max (S a) (w - 1)) with (Nat.max a (w - 1)) by lia.
      replace (S a + n)%nat with (a + S n)%nat by lia. reflexivity.
    + apply Nat.ltb_ge in Hlt. cbn [isnan negb]. rewrite IH.
      replace (Nat.max (S a) (w - 1)) with (S a) by lia.
      replace (Nat.max a (w - 1)) with a by lia.
      replace (S a + n - S a)%nat with n by lia.
      replace (a + S n - a)%nat with (S n) by lia.
      reflexivity.
Qed.

Lemma seq_from (a m : nat) : seq a m = map (fun k => (k + a)%nat) (seq 0 m).
Proof.
  revert a. induction m as [|m IH]; intros a; [reflexivity|].
  cbn [seq map]. f_equal. rewrite (IH (S a)), <- (seq_shift m 0), map_map.
  apply map_ext. intros k. lia.
Qed.

(** On a finite frame the rolling sums that survive [dropna] are the
    rolling-sum series. *)
Lemma rolling_sum_finite (w : nat) (s : list (Timestamp * R)) :
  (1 <= w)%nat ->
  dropna (rolling_sum w (finite_frame s)) = finite_frame (rolling_sum_series w s).
Proof.
  intros Hw. unfold rolling_sum.
  rewrite index_finite_frame, to_numpy_finite_frame.
  replace (length (finite_frame s)) with (length s)
    by (unfold finite_frame; rewrite length_map; reflexivity).
  rewrite (combine_map_seq (0%Z, 0)).
  rewrite (map_ext
             (fun i => (fst (nth (i - 0) s (0%Z, 0)),
                        if (i + 1 <? w)%nat then NaN
                        else fsum (window w i (map Fin (map snd s)))))
             (fun i => (fst (nth i s (0%Z, 0)),
                        if (i + 1 <? w)%nat then NaN
                        else Fin (Rsum (firstn w (skipn (i + 1 - w) (map snd s))))))).
  2:{ intros i. rewrite Nat.sub_0_r. unfold window.
      rewrite skipn_map, firstn_map, fsum_Fin. reflexivity. }
  rewrite (dropna_rolling w (fun i => fst (nth i s (0%Z, 0)))
             (fun i => Rsum (firstn w (skipn (i + 1 - w) (map snd s))))).
  unfold rolling_sum_series, finite_frame.
  replace (Nat.max 0 (w - 1)) with (w - 1)%nat by lia.
  replace (0 + length s - (w - 1))%nat with (length s + 1 - w)%nat by lia.
  rewrite (seq_from (w - 1)), !map_map.
  apply map_ext. intros k. cbn [fst snd].
  replace (k + (w - 1) + 1 - w)%nat with k by lia.
  replace (k + (w - 1))%nat with (k + w - 1)%nat by lia.
  reflexivity.
Qed.

Lemma length_rolling_sum_series (w : nat) (s : list (Timestamp * R)) :
  length (rolling_sum_series w s) = (length s + 1 - w)%nat.
Proof. unfold rolling_sum_series. rewrite length_map, length_seq. reflexivity. Qed.

Lemma get_var_cvar_finite (prices : list (Timestamp * R)) (w : nat) (p : R) :
  positive_prices prices -> (1 <= w)%nat ->
  (w <= length (log_return_series prices))%nat -> 0 <= p <= 1 ->
  get_var_cvar (finite_frame prices) w p
  = Returned (Fin (sample_var (historical_sample prices w) p),
              Fin (sample_cvar (historical_sample prices w) p)).
Proof.
  intros Hpos Hw Hlen Hp. unfold get_var_cvar.
  rewrite get_log_returns_finite by assumption. cbn [bind].
  rewrite rolling_sum_finite by assumption.
  assert (Hne : rolling_sum_series w (log_return_series prices) <> []).
  { intros Heq. pose proof (length_rolling_sum_series w (log_return_series prices)) as Hl.
    rewrite Heq in Hl. simpl in Hl. lia. }
  destruct (tail_risk_finite _ p Hne Hp) as [Hq Hm].
  fold (historical_sample prices w) in Hq, Hm.
  rewrite Hq. cbn [bind]. rewrite Hm. reflexivity.
Qed.

(** ** The Monte Carlo sample *)

Lemma map_snd_mc_rows (sample : list R) : map snd (mc_rows sample) = sample.
Proof.
  unfold mc_rows. apply map_snd_combine. rewrite length_map, length_seq. reflexivity.
Qed.

Lemma combine_map_r {A B C : Type} (f : B -> C) (l : list A) (l' : list B) :
  combine l (map f l') = map (fun row => (fst row, f (snd row))) (combine l l').
Proof.
  revert l'. induction l as [|a l IH]; intros [|b l']; simpl; auto.
  rewrite IH. reflexivity.
Qed.

Lemma frame_of_array_Fin (sample : list R) :
  frame_of_array (map Fin sample) = finite_frame (mc_rows sample).
Proof.
  unfold frame_of_array, mc_rows, finite_frame.
  rewrite length_map. apply combine_map_r.
Qed.

Lemma MonteCarloVar_finite (draw : nat -> nat -> R) (mu vol dT : R)
  (periods simulations : nat) (p : R) :
  0 <= vol -> 0 <= dT -> (1 <= simulations)%nat -> 0 <= p <= 1 ->
  let sample := mc_sample draw mu vol dT periods simulations in
  MonteCarloVar draw (Fin mu) (Fin vol) (Fin dT) periods simulations p
  = Returned (finite_frame (mc_rows sample),
              Fin (sample_var sample p), Fin (sample_cvar sample p)).
Proof.
  intros Hvol HdT Hsim Hp sample.
  assert (Hsqrt : fsqrt (Fin dT) = Fin (sqrt dT)).
  { cbn [fsqrt]. destruct (Rcompare_spec dT 0); try reflexivity. lra. }
  assert (Hscale : 0 <= vol * sqrt dT)
    by (apply Rmult_le_pos; [assumption | apply sqrt_pos]).
  unfold MonteCarloVar, np_random_normal.
  rewrite Hsqrt. cbn [fmul fadd fsign].
  assert (Hrows :
            map fsum
              (map (fun i =>
                      map (fun j => Fin (mu * dT + vol * sqrt dT * draw i j))
                        (seq 0 periods))
                 (seq 0 simulations))
            = map Fin sample).
  { unfold sample, mc_sample. rewrite !map_map. apply map_ext. intros i.
    rewrite <- fsum_Fin, map_map. reflexivity. }
  assert (Hne : sample <> []).
  { unfold sample, mc_sample. destruct simulations; [lia | discriminate]. }
  assert (Hne' : mc_rows sample <> []).
  { intros Heq. apply Hne. rewrite <- (map_snd_mc_rows sample), Heq. reflexivity. }
  destruct (tail_risk_finite (mc_rows sample) p Hne' Hp) as [Hq Hm].
  rewrite to_numpy_finite_frame, map_snd_mc_rows in Hq.
  rewrite map_snd_mc_rows in Hm.
  destruct (Rcompare_spec (vol * sqrt dT) 0) as [Heq | Hlt | Hgt];
    [| lra |]; cbn [bind]; rewrite Hrows, Hq; cbn [bind];
    rewrite frame_of_array_Fin, Hm; reflexivity.
Qed.

(** ** The estimators against the specification *)

(** C4.  On a positive price series whose log-returns admit at least one
    full window of size w >= 1, and for 0 < p < 1, [get_var_cvar] returns
    finite numbers [var] and [cvar] such that: the rolling sums are the sums
    of [w] consecutive log-returns, [len - w + 1] of them; [var] is the
    type-7 quantile of their order statistics (the sorted rearrangement of
    the sums), interpolated linearly; and [cvar] is the arithmetic mean of
    the rolling sums that are at most [var]. *)
Theorem get_var_cvar_refines_spec (prices : list (Timestamp * R)) (w : nat) (p : R) :
  positive_prices prices ->
  (1 <= w)%nat ->
  (w <= length (log_return_series prices))%nat ->
  0 < p < 1 ->
  exists (sums order_stats : list R) (var cvar : R),
    get_var_cvar (finite_frame prices) w p = Returned (Fin var, Fin cvar)
    /\ sums = map snd (rolling_sum_series w (log_return_series prices))
    /\ length sums = (length (log_return_series prices) - w + 1)%nat
    /\ Permutation sums order_stats
    /\ StronglySorted Rle order_stats
    /\ var = quantile_type7 order_stats p
    /\ cvar = Rmean (at_most var sums).
Proof.
  intros Hpos Hw Hlen Hp.
  exists (historical_sample prices w), (Rsort (historical_sample prices w)),
         (sample_var (historical_sample prices w) p),
         (sample_cvar (historical_sample prices w) p).
  split; [apply get_var_cvar_finite; auto; lra|].
  split; [reflexivity|].
  split.
  { unfold historical_sample. rewrite length_map, length_rolling_sum_series. lia. }
  split; [apply Rsort_perm|].
  split; [apply Rsort_sorted|].
  split; reflexivity.
Qed.

(** [get_var_cvar_refines_spec] on the scenario prices, with window 2 and
    p = 0.05. *)
Lemma get_var_cvar_refines_spec_witness :
  exists (sums order_stats : list R) (var cvar : R),
    get_var_cvar (finite_frame scenario_prices) 2 (1 / 20)
    = Returned (Fin var, Fin cvar)
    /\ sums = map snd (rolling_sum_series 2 (log_return_series scenario_prices))
    /\ length sums = (length (log_return_series scenario_prices) - 2 + 1)%nat
    /\ Permutation sums order_stats
    /\ StronglySorted Rle order_stats
    /\ var = quantile_type7 order_stats (1 / 20)
    /\ cvar = Rmean (at_most var sums).
Proof.
  apply (get_var_cvar_refines_spec scenario_prices 2 (1 / 20)).
  - exact scenario_prices_positive.
  - lia.
  - simpl. lia.
  - lra.
Defined.

(** C7.  For every confidence level in [[0, 1]] (so for every p < 0.5) the
    estimate has cvar <= var: for the historical estimator on any positive
    price series with at least one full window, and for the Monte Carlo
    estimator on any draws, with vol >= 0, dT >= 0 and at least one
    simulation. *)
Theorem cvar_le_var :
  (forall (prices : list (Timestamp * R)) (w : nat) (p : R),
      positive_prices prices ->
      (1 <= w)%nat ->
      (w <= length (log_return_series prices))%nat ->
      0 <= p <= 1 ->
      exists var cvar : R,
        get_var_cvar (finite_frame prices) w p = Returned (Fin var, Fin cvar)
        /\ cvar <= var)
  /\ (forall (draw : nat -> nat -> R) (mu vol dT : R)
             (periods simulations : nat) (p : R),
        0 <= vol -> 0 <= dT -> (1 <= simulations)%nat -> 0 <= p <= 1 ->
        exists (sim_returns : Frame) (var cvar : R),
          MonteCarloVar draw (Fin mu) (Fin vol) (Fin dT) periods simulations p
          = Returned (sim_returns, Fin var, Fin cvar)
          /\ cvar <= var).
Proof.
  split.
  - intros prices w p Hpos Hw Hlen Hp.
    exists (sample_var (historical_sample prices w) p),
           (sample_cvar (historical_sample prices w) p).
    split; [apply get_var_cvar_finite; assumption|].
    apply sample_cvar_le_var; [|assumption].
    intros Heq. unfold historical_sample in Heq.
    pose proof (length_rolling_sum_series w (log_return_series prices)) as Hl.
    apply (f_equal (@length R)) in Heq. rewrite length_map, Hl in Heq.
    simpl in Heq. lia.
  - intros draw mu vol dT periods simulations p Hvol HdT Hsim Hp.
    set (sample := mc_sample draw mu vol dT periods simulations).
    exists (finite_frame (mc_rows sample)), (sample_var sample p),
           (sample_cvar sample p).
    split; [apply MonteCarloVar_finite; assumption|].
    apply sample_cvar_le_var; [|assumption].
    unfold sample, mc_sample. destruct simulations; [lia | discriminate].
Qed.

(** [cvar_le_var] on the scenario prices (window 2, p = 0.05) and on three
    simulated paths of two periods. *)
Lemma cvar_le_var_witness :
  (exists var cvar : R,
      get_var_cvar (finite_frame scenario_prices) 2 (1 / 20)
      = Returned (Fin var, Fin cvar)
      /\ cvar <= var)
  /\ (exists (sim_returns : Frame) (var cvar : R),
         MonteCarloVar (fun i j => INR i - INR j) (Fin 0) (Fin 1) (Fin 1) 2 3 (1 / 20)
         = Returned (sim_returns, Fin var, Fin cvar)
         /\ cvar <= var).
Proof.
  split.
  - apply (proj1 cvar_le_var scenario_prices 2%nat (1 / 20)).
    + exact scenario_prices_positive.
    + lia.
    + simpl. lia.
    + lra.
  - apply (proj2 cvar_le_var (fun i j => INR i - INR j) 0 1 1 2%nat 3%nat (1 / 20)).
    + lra.
    + lra.
    + lia.
    + lra.
Defined.

(** C10 (amended).  On a non-empty sample of finite values the interpolated
    quantile lies between the least and the greatest value of the sample, so
    the least value is among the values at or below it, and cvar, their mean,
    is a finite number and not [nan].  This holds for [get_var_cvar] (the
    sample being the rolling sums of the log-returns of positive prices) and
    for [MonteCarloVar] (the sample being the simulated aggregate returns,
    for finite mu, vol >= 0 and dT >= 0). *)
Theorem quantile_within_sample_range :
  (forall (prices : list (Timestamp * R)) (w : nat) (p : R),
      positive_prices prices ->
      (1 <= w)%nat ->
      (w <= length (log_return_series prices))%nat ->
      0 <= p <= 1 ->
      let sample := map snd (rolling_sum_series w (log_return_series prices)) in
      exists var cvar lo hi : R,
        get_var_cvar (finite_frame prices) w p = Returned (Fin var, Fin cvar)
        /\ In lo sample /\ In hi sample
        /\ (forall x, In x sample -> lo <= x <= hi)
        /\ lo <= var <= hi
        /\ In lo (at_most var sample)
        /\ cvar = Rmean (at_most var sample))
  /\ (forall (draw : nat -> nat -> R) (mu vol dT : R)
             (periods simulations : nat) (p : R),
        0 <= vol -> 0 <= dT -> (1 <= simulations)%nat -> 0 <= p <= 1 ->
        let sample := mc_sample draw mu vol dT periods simulations in
        exists (sim_returns : Frame) (var cvar lo hi : R),
          MonteCarloVar draw (Fin mu) (Fin vol) (Fin dT) periods simulations p
          = Returned (sim_returns, Fin var, Fin cvar)
          /\ to_numpy sim_returns = map Fin sample
          /\ In lo sample /\ In hi sample
          /\ (forall x, In x sample -> lo <= x <= hi)
          /\ lo <= var <= hi
          /\ In lo (at_most var sample)
          /\ cvar = Rmean (at_most var sample)).
Proof.
  split.
  - intros prices w p Hpos Hw Hlen Hp sample.
    assert (Hne : sample <> []).
    { intros Heq. unfold sample in Heq.
      pose proof (length_rolling_sum_series w (log_return_series prices)) as Hl.
      apply (f_equal (@length R)) in Heq. rewrite length_map, Hl in Heq.
      simpl in Heq. lia. }
    destruct (sample_min_at_most sample p Hne Hp) as [Hlo [Hhi [Hall [Hq Hin]]]].
    exists (sample_var sample p), (sample_cvar sample p),
           (nth 0 (Rsort sample) 0), (nth (length sample - 1) (Rsort sample) 0).
    split; [apply get_var_cvar_finite; assumption|].
    repeat (split; [assumption|]). reflexivity.
  - intros draw mu vol dT periods simulations p Hvol HdT Hsim Hp sample.
    assert (Hne : sample <> []).
    { unfold sample, mc_sample. destruct simulations; [lia | discriminate]. }
    destruct (sample_min_at_most sample p Hne Hp) as [Hlo [Hhi [Hall [Hq Hin]]]].
    exists (finite_frame (mc_rows sample)), (sample_var sample p),
           (sample_cvar sample p),
           (nth 0 (Rsort sample) 0), (nth (length sample - 1) (Rsort sample) 0).
    split; [apply MonteCarloVar_finite; assumption|].
    split; [rewrite to_numpy_finite_frame, map_snd_mc_rows; reflexivity|].
    repeat (split; [assumption|]). reflexivity.
Qed.

(** [quantile_within_sample_range] on the scenario prices, with window 2 and
    p = 0.05. *)
Lemma quantile_within_sample_range_witness :
  exists var cvar lo hi : R,
    get_var_cvar (finite_frame scenario_prices) 2 (1 / 20)
    = Returned (Fin var, Fin cvar)
    /\ lo <= var <= hi
    /\ In lo (at_most var
                (map snd (rolling_sum_series 2 (log_return_series scenario_prices)))).
Proof.
  destruct (proj1 quantile_within_sample_range scenario_prices 2%nat (1 / 20))
    as [var [cvar [lo [hi [Hrun [_ [_ [_ [Hq [Hin _]]]]]]]]]].
  - exact scenario_prices_positive.
  - lia.
  - simpl. lia.
  - lra.
  - exists var, cvar, lo, hi. split; [exact Hrun|]. split; [exact Hq | exact Hin].
Defined.

(** C10, as stated: a non-empty sample need not be finite.  With a
    volatility that is [nan] (the standard deviation of a single log-return,
    which [main] passes on when the look-back period is 2 and the rolling
    window 1) the one simulated return is [nan], so is the quantile, no row
    is at or below it, and cvar is [nan]. *)
Lemma MonteCarloVar_nan_volatility :
  MonteCarloVar (fun _ _ => 0) (Fin 0) NaN (Fin 1) 1 1 (1 / 20)
  = Returned ([(0%Z, NaN)], NaN, NaN).
Proof.
  unfold MonteCarloVar, np_random_normal.
  cbn [fsqrt fmul fsign seq map fadd bind fsum fold_right].
  unfold np_quantile.
  rewrite (Rleb_true 0 (1 / 20)), (Rleb_true (1 / 20) 1) by lra.
  reflexivity.
Qed.

(** ** The embedding on small inputs *)

Lemma floor_nat_eq (x : R) (k : nat) :
  INR k <= x < INR k + 1 -> floor_nat x = k.
Proof.
  intros [Hlo Hhi]. unfold floor_nat.
  rewrite <- (Int_part_spec x (Z.of_nat k)).
  - apply Nat2Z.id.
  - rewrite <- INR_IZR_INZ. lra.
Qed.

Example split_point_10 : split_point 10 = 8%nat.
Proof. reflexivity. Qed.

(** The split point is the integer part of eight tenths of the length. *)
Lemma split_point_floor (n : nat) :
  split_point n = floor_nat (INR n * (8 / 10)).
Proof.
  symmetry. apply floor_nat_eq. unfold split_point.
  pose proof (Nat.div_mod_eq (4 * n) 5) as Hdiv.
  pose proof (Nat.mod_upper_bound (4 * n) 5 ltac:(lia)) as Hmod.
  set (k := (4 * n / 5)%nat) in *. set (r := ((4 * n) mod 5)%nat) in *.
  apply (f_equal INR) in Hdiv.
  rewrite plus_INR, !mult_INR in Hdiv.
  assert (H4 : INR 4 = 4) by (simpl; lra).
  assert (H5 : INR 5 = 5) by (simpl; lra).
  assert (Hr0 : 0 <= INR r) by apply pos_INR.
  assert (Hr5 : INR r < INR 5) by (apply lt_INR; exact Hmod).
  rewrite H4, H5 in *. lra.
Qed.

Example rolling_sum_window_2 :
  dropna (rolling_sum 2 [(0%Z, Fin 1); (1%Z, Fin 2); (2%Z, Fin 4)])
  = [(1%Z, Fin 3); (2%Z, Fin 6)].
Proof.
  change [(0%Z, Fin 1); (1%Z, Fin 2); (2%Z, Fin 4)]
    with (finite_frame [(0%Z, 1); (1%Z, 2); (2%Z, 4)]).
  rewrite rolling_sum_finite by lia.
  unfold rolling_sum_series, finite_frame. simpl.
  repeat f_equal; ring.
Qed.

Example Rsort_3_1_2 : Rsort [3; 1; 2] = [1; 2; 3].
Proof.
  unfold Rsort. simpl.
  rewrite (Rleb_true 1 2) by lra. simpl.
  rewrite (Rleb_false 3 1), (Rleb_false 3 2) by lra. reflexivity.
Qed.

(** [np.quantile([3, 1, 2], 0.05)] is 1.1. *)
Example np_quantile_3_1_2 :
  np_quantile [Fin 3; Fin 1; Fin 2] (1 / 20) = Returned (Fin (11 / 10)).
Proof.
  change [Fin 3; Fin 1; Fin 2] with (map Fin [3; 1; 2]).
  rewrite np_quantile_finite by (try discriminate; lra).
  rewrite Rsort_3_1_2. unfold quantile_type7.
  assert (Hfloor : floor_nat (INR (length [1; 2; 3] - 1) * (1 / 20)) = 0%nat).
  { apply floor_nat_eq. simpl. lra. }
  rewrite Hfloor. simpl. do 2 f_equal. lra.
Qed.

(** The mean of the values at or below 1.1 is 1: the tail of the example
    holds the least value alone. *)
Example df_mean_tail_3_1_2 :
  df_mean (rows_le (Fin (11 / 10)) [(0%Z, Fin 3); (1%Z, Fin 1); (2%Z, Fin 2)])
  = Fin 1.
Proof.
  change [(0%Z, Fin 3); (1%Z, Fin 1); (2%Z, Fin 2)]
    with (finite_frame [(0%Z, 3); (1%Z, 1); (2%Z, 2)]).
  rewrite rows_le_finite. cbn [filter snd].
  rewrite (Rleb_false 3 (11 / 10)), (Rleb_true 1 (11 / 10)),
    (Rleb_false 2 (11 / 10)) by lra.
  rewrite df_mean_finite. unfold Rmean. simpl. f_equal. field.
Qed.

(** With no value at or below the bound the mean is [nan]. *)
Example df_mean_empty_tail :
  df_mean (rows_le (Fin 0) [(0%Z, Fin 3); (1%Z, Fin 1)]) = NaN.
Proof.
  change [(0%Z, Fin 3); (1%Z, Fin 1)] with (finite_frame [(0%Z, 3); (1%Z, 1)]).
  rewrite rows_le_finite. cbn [filter snd].
  rewrite (Rleb_false 3 0), (Rleb_false 1 0) by lra.
  reflexivity.
Qed.

(** * Further properties of the code *)

(** ** What the log-returns add up to *)

Lemma ln_ratio (x y : R) : 0 < x -> 0 < y -> ln (y / x) = ln y - ln x.
Proof.
  intros Hx Hy. unfold Rdiv.
  rewrite ln_mult by (try apply Rinv_0_lt_compat; assumption).
  rewrite ln_Rinv by assumption. ring.
Qed.

Lemma positive_prices_skipn (k : nat) (prices : list (Timestamp * R)) :
  positive_prices prices -> positive_prices (skipn k prices).
Proof.
  unfold positive_prices. revert prices.
  induction k as [|k IH]; intros prices Hpos; [exact Hpos|].
  destruct prices as [|row prices]; [constructor|].
  inversion Hpos; subst. apply IH. assumption.
Qed.

Lemma positive_prices_nth (prices : list (Timestamp * R)) (i : nat) :
  positive_prices prices -> (i < length prices)%nat ->
  0 < snd (nth i prices (0%Z, 0)).
Proof.
  intros Hpos Hi. unfold positive_prices in Hpos. rewrite Forall_forall in Hpos.
  apply Hpos, nth_In. assumption.
Qed.

Lemma log_return_series_skipn (k : nat) (prices : list (Timestamp * R)) :
  skipn k (log_return_series prices) = log_return_series (skipn k prices).
Proof.
  revert prices. induction k as [|k IH]; intros prices; [reflexivity|].
  destruct prices as [|[t x] [|[u y] rest]].
  - reflexivity.
  - simpl. destruct k; reflexivity.
  - change (log_return_series ((t, x) :: (u, y) :: rest))
      with ((t, ln (y / x)) :: log_return_series ((u, y) :: rest)).
    change (skipn (S k) ((t, x) :: (u, y) :: rest)) with (skipn k ((u, y) :: rest)).
    change (skipn (S k) ((t, ln (y / x)) :: log_return_series ((u, y) :: rest)))
      with (skipn k (log_return_series ((u, y) :: rest))).
    apply IH.
Qed.

(** The first [w] log-returns telescope to the log-return over [w] periods. *)
Lemma Rsum_log_returns_prefix (w : nat) (prices : list (Timestamp * R)) :
  positive_prices prices -> (w < length prices)%nat ->
  Rsum (firstn w (map snd (log_return_series prices)))
  = ln (snd (nth w prices (0%Z, 0))) - ln (snd (nth 0 prices (0%Z, 0))).
Proof.
  revert prices. induction w as [|w IH]; intros prices Hpos Hw.
  - simpl. ring.
  - destruct prices as [|[t x] [|[u y] rest]]; try (simpl in Hw; lia).
    change (log_return_series ((t, x) :: (u, y) :: rest))
      with ((t, ln (y / x)) :: log_return_series ((u, y) :: rest)).
    cbn [map snd firstn]. change (Rsum (?a :: ?l)) with (a + Rsum l).
    inversion Hpos as [|? ? Hx Hrest]; subst.
    inversion Hrest as [|? ? Hy _]; subst. simpl in Hx, Hy.
    rewrite (IH ((u, y) :: rest) Hrest) by (simpl in *; lia).
    rewrite ln_ratio by assumption.
    cbn [nth snd]. ring.
Qed.

(** Any [w] consecutive log-returns telescope likewise. *)
Lemma Rsum_log_returns_window (k w : nat) (prices : list (Timestamp * R)) :
  positive_prices prices -> (k + w < length prices)%nat ->
  Rsum (firstn w (skipn k (map snd (log_return_series prices))))
  = ln (snd (nth (k + w) prices (0%Z, 0)) / snd (nth k prices (0%Z, 0))).
Proof.
  intros Hpos Hkw.
  rewrite skipn_map, log_return_series_skipn.
  rewrite Rsum_log_returns_prefix.
  - rewrite !nth_skipn, Nat.add_0_r.
    rewrite ln_ratio; [reflexivity | |]; apply positive_prices_nth; auto; lia.
  - apply positive_prices_skipn. assumption.
  - rewrite length_skipn. lia.
Qed.

Lemma nth_map_seq {A : Type} (f : nat -> A) (n k : nat) (d : A) :
  (k < n)%nat -> nth k (map f (seq 0 n)) d = f k.
Proof.
  intros Hk.
  rewrite (nth_indep _ d (f 0%nat)) by (rewrite length_map, length_seq; lia).
  rewrite map_nth, seq_nth by lia. reflexivity.
Qed.

(** X1.  On positive closing prices the rolling sums that [main] and
    [get_var_cvar] build with window w >= 1 are the log-returns over w
    periods: there are [len - w] of them, and the k-th is
    ln(price[k+w] / price[k]), labelled with the date of price [k+w-1]. *)
Theorem rolling_sums_are_period_returns (prices : list (Timestamp * R)) (w : nat) :
  positive_prices prices ->
  (1 <= w)%nat ->
  exists sums : list (Timestamp * R),
    main_returns (finite_frame prices) w
    = Returned (finite_frame (log_return_series prices), finite_frame sums)
    /\ length sums = (length prices - w)%nat
    /\ forall k : nat,
        (k + w < length prices)%nat ->
        nth k sums (0%Z, 0)
        = (fst (nth (k + w - 1) prices (0%Z, 0)),
           ln (snd (nth (k + w) prices (0%Z, 0)) / snd (nth k prices (0%Z, 0)))).
Proof.
  intros Hpos Hw.
  exists (rolling_sum_series w (log_return_series prices)).
  split; [|split].
  - unfold main_returns. rewrite get_log_returns_finite by assumption.
    cbn [bind]. rewrite rolling_sum_finite by assumption. reflexivity.
  - rewrite length_rolling_sum_series, length_log_return_series. lia.
  - intros k Hk. unfold rolling_sum_series.
    rewrite length_log_return_series.
    rewrite nth_map_seq by lia.
    rewrite nth_log_return_series by lia.
    rewrite Rsum_log_returns_window by assumption.
    reflexivity.
Qed.

Lemma rolling_sums_are_period_returns_witness :
  exists sums : list (Timestamp * R),
    main_returns (finite_frame scenario_prices) 2
    = Returned (finite_frame (log_return_series scenario_prices), finite_frame sums)
    /\ length sums = 3%nat
    /\ nth 0 sums (0%Z, 0) = (1%Z, ln (98 / 100)).
Proof.
  destruct (rolling_sums_are_period_returns scenario_prices 2
              scenario_prices_positive ltac:(lia)) as [sums [Hrun [Hlen Hnth]]].
  exists sums. split; [exact Hrun|]. split; [exact Hlen|].
  apply (Hnth 0%nat). simpl. lia.
Defined.

(** X2.  Round trip: on positive prices, every price is the first price
    times the exponential of the sum of the log-returns returned before
    it. *)
Theorem prices_from_log_returns (prices : list (Timestamp * R)) :
  positive_prices prices ->
  exists returns : list (Timestamp * R),
    get_log_returns (finite_frame prices) = Returned (finite_frame returns)
    /\ forall k : nat,
        (k < length prices)%nat ->
        snd (nth k prices (0%Z, 0))
        = snd (nth 0 prices (0%Z, 0)) * exp (Rsum (firstn k (map snd returns))).
Proof.
  intros Hpos. exists (log_return_series prices).
  split; [apply get_log_returns_finite; assumption|].
  intros k Hk.
  assert (H0 : 0 < snd (nth 0 prices (0%Z, 0)))
    by (apply positive_prices_nth; [assumption | lia]).
  assert (Hkpos : 0 < snd (nth k prices (0%Z, 0)))
    by (apply positive_prices_nth; assumption).
  rewrite Rsum_log_returns_prefix by assumption.
  rewrite <- ln_ratio by assumption.
  rewrite exp_ln by (apply Rdiv_lt_0_compat; assumption).
  field. lra.
Qed.

Lemma prices_from_log_returns_witness :
  exists returns : list (Timestamp * R),
    get_log_returns (finite_frame scenario_prices) = Returned (finite_frame returns)
    /\ 110 = 100 * exp (Rsum (firstn 4 (map snd returns))).
Proof.
  destruct (prices_from_log_returns scenario_prices scenario_prices_positive)
    as [returns [Hrun Hk]].
  exists returns. split; [exact Hrun|].
  apply (Hk 4%nat). simpl. lia.
Defined.

(** ** Prices in another unit *)

Lemma rescale_prices_positive (c : R) (prices : list (Timestamp * R)) :
  0 < c -> positive_prices prices -> positive_prices (rescale_prices c prices).
Proof.
  intros Hc Hpos. unfold positive_prices, rescale_prices in *.
  rewrite Forall_map. eapply Forall_impl; [|exact Hpos].
  intros row Hrow. simpl. apply Rmult_lt_0_compat; assumption.
Qed.

Lemma log_return_series_rescale (c : R) (prices : list (Timestamp * R)) :
  0 < c -> positive_prices prices ->
  log_return_series (rescale_prices c prices) = log_return_series prices.
Proof.
  intros Hc. induction prices as [|[t x] [|[u y] rest] IH]; intros Hpos; auto.
  inversion Hpos as [|? ? Hx Hrest]; subst. simpl in Hx.
  change (rescale_prices c ((t, x) :: (u, y) :: rest))
    with ((t, c * x) :: rescale_prices c ((u, y) :: rest)).
  change (rescale_prices c ((u, y) :: rest))
    with ((u, c * y) :: rescale_prices c rest) at 1.
  change (log_return_series ((t, c * x) :: (u, c * y) :: rescale_prices c rest))
    with ((t, ln (c * y / (c * x)))
            :: log_return_series (rescale_prices c ((u, y) :: rest))).
  rewrite (IH Hrest).
  replace (c * y / (c * x)) with (y / x) by (field; lra).
  reflexivity.
Qed.

(** X3.  Quoting the prices in another unit changes nothing: for a factor
    c > 0 and positive prices, [get_log_returns] returns the same series and
    [get_var_cvar] the same outcome, for every window and level. *)
Theorem risk_is_unit_free (c : R) (prices : list (Timestamp * R)) :
  0 < c ->
  positive_prices prices ->
  get_log_returns (finite_frame (rescale_prices c prices))
  = get_log_returns (finite_frame prices)
  /\ forall (w : nat) (p : R),
      get_var_cvar (finite_frame (rescale_prices c prices)) w p
      = get_var_cvar (finite_frame prices) w p.
Proof.
  intros Hc Hpos.
  assert (Heq : get_log_returns (finite_frame (rescale_prices c prices))
                = get_log_returns (finite_frame prices)).
  { rewrite !get_log_returns_finite
      by (try apply rescale_prices_positive; assumption).
    rewrite log_return_series_rescale by assumption. reflexivity. }
  split; [exact Heq|].
  intros w p. unfold get_var_cvar. rewrite Heq. reflexivity.
Qed.

Lemma risk_is_unit_free_witness :
  get_log_returns (finite_frame (rescale_prices 3 scenario_prices))
  = get_log_returns (finite_frame scenario_prices)
  /\ forall (w : nat) (p : R),
      get_var_cvar (finite_frame (rescale_prices 3 scenario_prices)) w p
      = get_var_cvar (finite_frame scenario_prices) w p.
Proof.
  apply (risk_is_unit_free 3 scenario_prices).
  - lra.
  - exact scenario_prices_positive.
Defined.

(** ** The quantile as a function of the level *)

Lemma floor_nat_monotone (x y : R) :
  0 <= x -> x <= y -> (floor_nat x <= floor_nat y)%nat.
Proof.
  intros Hx Hxy.
  destruct (floor_nat_spec x Hx) as [Hlo _].
  destruct (floor_nat_spec y ltac:(lra)) as [_ Hhi].
  assert (H : INR (floor_nat x) < INR (floor_nat y + 1)).
  { rewrite plus_INR. simpl. lra. }
  apply INR_lt in H. lia.
Qed.

(** The type-7 quantile lies between the order statistic of its rank and the
    next one (the same one at the last rank). *)
Lemma quantile_type7_between (s : list R) (q : R) :
  StronglySorted Rle s -> s <> [] -> 0 <= q <= 1 ->
  let j := floor_nat (INR (length s - 1) * q) in
  nth j s 0 <= quantile_type7 s q
  /\ quantile_type7 s q <= nth (Nat.min (j + 1) (length s - 1)) s 0.
Proof.
  intros Hs Hne Hq j.
  assert (Hn : (1 <= length s)%nat) by (destruct s; [congruence | simpl; lia]).
  destruct (quantile_rank_bound (length s) q Hn Hq) as [Hj [Hg Hlast]].
  unfold quantile_type7. fold j in Hj, Hg, Hlast |- *.
  destruct (Nat.eq_dec j (length s - 1)) as [Heq|Hlt].
  - rewrite (Hlast Heq), Nat.min_r by lia. rewrite <- Heq. lra.
  - rewrite Nat.min_l by lia.
    assert (Hjj : nth j s 0 <= nth (j + 1) s 0)
      by (apply sorted_nth_le; [assumption | lia]).
    split; nra.
Qed.

Lemma quantile_type7_monotone (s : list R) (p q : R) :
  StronglySorted Rle s -> s <> [] -> 0 <= p -> p <= q -> q <= 1 ->
  quantile_type7 s p <= quantile_type7 s q.
Proof.
  intros Hs Hne Hp Hpq Hq.
  assert (Hn : (1 <= length s)%nat) by (destruct s; [congruence | simpl; lia]).
  assert (Hpos : 0 <= INR (length s - 1)) by apply pos_INR.
  destruct (quantile_rank_bound (length s) p Hn ltac:(lra)) as [Hjp [Hgp Hlastp]].
  destruct (quantile_rank_bound (length s) q Hn ltac:(lra)) as [Hjq [Hgq Hlastq]].
  destruct (quantile_type7_between s p Hs Hne ltac:(lra)) as [_ Hup].
  destruct (quantile_type7_between s q Hs Hne ltac:(lra)) as [Hlow _].
  assert (Hmono : (floor_nat (INR (length s - 1) * p)
                   <= floor_nat (INR (length s - 1) * q))%nat)
    by (apply floor_nat_monotone; nra).
  set (hp := INR (length s - 1) * p) in *.
  set (hq := INR (length s - 1) * q) in *.
  set (jp := floor_nat hp) in *. set (jq := floor_nat hq) in *.
  destruct (Nat.eq_dec jp jq) as [Heq|Hne'].
  - unfold quantile_type7. fold hp hq jp jq. rewrite <- Heq.
    destruct (Nat.eq_dec jp (length s - 1)) as [Hend|Hin].
    + assert (E2 : hq - INR jp = 0)
        by (rewrite Heq; apply Hlastq; rewrite <- Heq; exact Hend).
      rewrite (Hlastp Hend), E2. lra.
    + assert (Hjj : nth jp s 0 <= nth (jp + 1) s 0)
        by (apply sorted_nth_le; [assumption | lia]).
      assert (Hh : hp <= hq) by (unfold hp, hq; nra).
      rewrite <- Heq in Hgq. nra.
  - rewrite Nat.min_l in Hup by lia.
    assert (Hmid : nth (jp + 1) s 0 <= nth jq s 0)
      by (apply sorted_nth_le; [assumption | lia]).
    lra.
Qed.

Lemma historical_sample_nonempty (prices : list (Timestamp * R)) (w : nat) :
  (1 <= w)%nat -> (w <= length (log_return_series prices))%nat ->
  historical_sample prices w <> [].
Proof.
  intros Hw Hlen Heq. unfold historical_sample in Heq.
  apply (f_equal (@length R)) in Heq.
  rewrite length_map, length_rolling_sum_series in Heq. simpl in Heq. lia.
Qed.

Lemma mc_sample_nonempty (draw : nat -> nat -> R) (mu vol dT : R)
  (periods simulations : nat) :
  (1 <= simulations)%nat -> mc_sample draw mu vol dT periods simulations <> [].
Proof.
  intros Hsim. unfold mc_sample. destruct simulations; [lia | discriminate].
Qed.

Lemma sample_var_monotone (sample : list R) (p q : R) :
  sample <> [] -> 0 <= p -> p <= q -> q <= 1 ->
  sample_var sample p <= sample_var sample q.
Proof.
  intros Hne Hp Hpq Hq. unfold sample_var.
  apply quantile_type7_monotone; auto using Rsort_sorted.
  intros Heq. pose proof (length_Rsort sample) as Hl. rewrite Heq in Hl.
  destruct sample; [congruence | discriminate].
Qed.

(** X4.  The value at risk grows with the level: for levels p <= q in
    [[0, 1]], the var returned at p is at most the var returned at q, for
    [get_var_cvar] on the same prices and window and for [MonteCarloVar] on
    the same draws. *)
Theorem var_monotone_in_level (p q : R) :
  0 <= p -> p <= q -> q <= 1 ->
  (forall (prices : list (Timestamp * R)) (w : nat),
      positive_prices prices ->
      (1 <= w)%nat ->
      (w <= length (log_return_series prices))%nat ->
      exists var_p cvar_p var_q cvar_q : R,
        get_var_cvar (finite_frame prices) w p = Returned (Fin var_p, Fin cvar_p)
        /\ get_var_cvar (finite_frame prices) w q = Returned (Fin var_q, Fin cvar_q)
        /\ var_p <= var_q)
  /\ (forall (draw : nat -> nat -> R) (mu vol dT : R) (periods simulations : nat),
        0 <= vol -> 0 <= dT -> (1 <= simulations)%nat ->
        exists (sim_returns : Frame) (var_p cvar_p var_q cvar_q : R),
          MonteCarloVar draw (Fin mu) (Fin vol) (Fin dT) periods simulations p
          = Returned (sim_returns, Fin var_p, Fin cvar_p)
          /\ MonteCarloVar draw (Fin mu) (Fin vol) (Fin dT) periods simulations q
             = Returned (sim_returns, Fin var_q, Fin cvar_q)
          /\ var_p <= var_q).
Proof.
  intros Hp Hpq Hq. split.
  - intros prices w Hpos Hw Hlen.
    exists (sample_var (historical_sample prices w) p),
           (sample_cvar (historical_sample prices w) p),
           (sample_var (historical_sample prices w) q),
           (sample_cvar (historical_sample prices w) q).
    split; [apply get_var_cvar_finite; auto; lra|].
    split; [apply get_var_cvar_finite; auto; lra|].
    apply sample_var_monotone;
      [apply historical_sample_nonempty; assumption | assumption ..].
  - intros draw mu vol dT periods simulations Hvol HdT Hsim.
    set (sample := mc_sample draw mu vol dT periods simulations).
    exists (finite_frame (mc_rows sample)),
           (sample_var sample p), (sample_cvar sample p),
           (sample_var sample q), (sample_cvar sample q).
    split; [apply MonteCarloVar_finite; auto; lra|].
    split; [apply MonteCarloVar_finite; auto; lra|].
    apply sample_var_monotone;
      [apply mc_sample_nonempty; assumption | assumption ..].
Qed.

Lemma var_monotone_in_level_witness :
  exists var_p cvar_p var_q cvar_q : R,
    get_var_cvar (finite_frame scenario_prices) 2 (1 / 100)
    = Returned (Fin var_p, Fin cvar_p)
    /\ get_var_cvar (finite_frame scenario_prices) 2 (1 / 20)
       = Returned (Fin var_q, Fin cvar_q)
    /\ var_p <= var_q.
Proof.
  apply (proj1 (var_monotone_in_level (1 / 100) (1 / 20)
                  ltac:(lra) ltac:(lra) ltac:(lra))).
  - exact scenario_prices_positive.
  - lia.
  - simpl. lia.
Defined.

(** ** The tail mean between the least value and the quantile *)

Lemma Rsum_ge_bound (v : R) (l : list R) :
  (forall x, In x l -> v <= x) -> v * INR (length l) <= Rsum l.
Proof.
  induction l as [|x l IH]; intros Hall.
  - simpl. lra.
  - change (Rsum (x :: l)) with (x + Rsum l).
    change (length (x :: l)) with (S (length l)). rewrite S_INR.
    assert (v <= x) by (apply Hall; left; reflexivity).
    assert (v * INR (length l) <= Rsum l)
      by (apply IH; intros y Hy; apply Hall; right; assumption).
    lra.
Qed.

Lemma Rmean_ge_bound (v : R) (l : list R) :
  l <> [] -> (forall x, In x l -> v <= x) -> v <= Rmean l.
Proof.
  intros Hne Hall. unfold Rmean.
  assert (Hlen : 0 < INR (length l)).
  { apply lt_0_INR. destruct l; [congruence | simpl; lia]. }
  apply (Rmult_le_reg_r (INR (length l))); [assumption|].
  unfold Rdiv. rewrite Rmult_assoc, Rinv_l, Rmult_1_r by lra.
  apply Rsum_ge_bound. assumption.
Qed.

(** The tail mean of a non-empty finite sample lies between the least value
    of the sample and the quantile. *)
Lemma sample_cvar_bounds (sample : list R) (p : R) :
  sample <> [] -> 0 <= p <= 1 ->
  nth 0 (Rsort sample) 0 <= sample_cvar sample p <= sample_var sample p.
Proof.
  intros Hne Hp.
  destruct (sample_min_at_most sample p Hne Hp) as [_ [_ [Hall [_ Hin]]]].
  split; [|apply sample_cvar_le_var; assumption].
  unfold sample_cvar. apply Rmean_ge_bound.
  - intros Heq. rewrite Heq in Hin. destruct Hin.
  - intros x Hx. apply at_most_spec in Hx. destruct Hx as [Hx _].
    apply Hall. assumption.
Qed.

(** X5.  The expected shortfall never goes below the least value of the
    sample: on a non-empty finite sample and a level in [[0, 1]], both
    estimators return min <= cvar <= var. *)
Theorem cvar_at_least_sample_minimum (p : R) :
  0 <= p <= 1 ->
  (forall (prices : list (Timestamp * R)) (w : nat),
      positive_prices prices ->
      (1 <= w)%nat ->
      (w <= length (log_return_series prices))%nat ->
      exists var cvar lo : R,
        get_var_cvar (finite_frame prices) w p = Returned (Fin var, Fin cvar)
        /\ In lo (historical_sample prices w)
        /\ (forall x, In x (historical_sample prices w) -> lo <= x)
        /\ lo <= cvar <= var)
  /\ (forall (draw : nat -> nat -> R) (mu vol dT : R) (periods simulations : nat),
        0 <= vol -> 0 <= dT -> (1 <= simulations)%nat ->
        exists (sim_returns : Frame) (var cvar lo : R),
          MonteCarloVar draw (Fin mu) (Fin vol) (Fin dT) periods simulations p
          = Returned (sim_returns, Fin var, Fin cvar)
          /\ In lo (mc_sample draw mu vol dT periods simulations)
          /\ (forall x, In x (mc_sample draw mu vol dT periods simulations) -> lo <= x)
          /\ lo <= cvar <= var).
Proof.
  intros Hp. split.
  - intros prices w Hpos Hw Hlen.
    set (sample := historical_sample prices w).
    assert (Hne : sample <> []) by (apply historical_sample_nonempty; assumption).
    destruct (sample_min_at_most sample p Hne Hp) as [Hlo [_ [Hall _]]].
    exists (sample_var sample p), (sample_cvar sample p), (nth 0 (Rsort sample) 0).
    split; [apply get_var_cvar_finite; assumption|].
    split; [exact Hlo|]. split; [intros x Hx; apply Hall; exact Hx|].
    apply sample_cvar_bounds; assumption.
  - intros draw mu vol dT periods simulations Hvol HdT Hsim.
    set (sample := mc_sample draw mu vol dT periods simulations).
    assert (Hne : sample <> []) by (apply mc_sample_nonempty; assumption).
    destruct (sample_min_at_most sample p Hne Hp) as [Hlo [_ [Hall _]]].
    exists (finite_frame (mc_rows sample)), (sample_var sample p),
           (sample_cvar sample p), (nth 0 (Rsort sample) 0).
    split; [apply MonteCarloVar_finite; assumption|].
    split; [exact Hlo|]. split; [intros x Hx; apply Hall; exact Hx|].
    apply sample_cvar_bounds; assumption.
Qed.

Lemma cvar_at_least_sample_minimum_witness :
  exists var cvar lo : R,
    get_var_cvar (finite_frame scenario_prices) 2 (1 / 20)
    = Returned (Fin var, Fin cvar)
    /\ In lo (historical_sample scenario_prices 2)
    /\ (forall x, In x (historical_sample scenario_prices 2) -> lo <= x)
    /\ lo <= cvar <= var.
Proof.
  apply (proj1 (cvar_at_least_sample_minimum (1 / 20) ltac:(lra))).
  - exact scenario_prices_positive.
  - lia.
  - simpl. lia.
Defined.

(** ** The extreme levels *)

Lemma floor_nat_INR (n : nat) : floor_nat (INR n) = n.
Proof. apply floor_nat_eq. lra. Qed.

Lemma sample_var_0 (sample : list R) :
  sample_var sample 0 = nth 0 (Rsort sample) 0.
Proof.
  unfold sample_var, quantile_type7. rewrite Rmult_0_r.
  assert (H0 : floor_nat 0 = 0%nat) by (apply floor_nat_eq; simpl; lra).
  rewrite H0. simpl. ring.
Qed.

Lemma sample_var_1 (sample : list R) :
  sample_var sample 1 = nth (length sample - 1) (Rsort sample) 0.
Proof.
  unfold sample_var, quantile_type7. rewrite Rmult_1_r, length_Rsort.
  rewrite floor_nat_INR. ring.
Qed.

Lemma at_most_all (v : R) (l : list R) :
  (forall x, In x l -> x <= v) -> at_most v l = l.
Proof.
  intros Hall. unfold at_most. apply forallb_filter_id.
  apply forallb_forall. intros x Hx. apply Rleb_le, Hall, Hx.
Qed.

(** X6.  At the extreme levels [get_var_cvar] returns the extremes of the
    rolling sums: at p = 0 both var and cvar are the least rolling sum, and
    at p = 1 var is the greatest rolling sum and cvar the mean of all of
    them. *)
Theorem get_var_cvar_extreme_levels (prices : list (Timestamp * R)) (w : nat) :
  positive_prices prices ->
  (1 <= w)%nat ->
  (w <= length (log_return_series prices))%nat ->
  exists lo hi : R,
    In lo (historical_sample prices w)
    /\ In hi (historical_sample prices w)
    /\ (forall x, In x (historical_sample prices w) -> lo <= x <= hi)
    /\ get_var_cvar (finite_frame prices) w 0 = Returned (Fin lo, Fin lo)
    /\ get_var_cvar (finite_frame prices) w 1
       = Returned (Fin hi, Fin (Rmean (historical_sample prices w))).
Proof.
  intros Hpos Hw Hlen.
  set (sample := historical_sample prices w).
  assert (Hne : sample <> []) by (apply historical_sample_nonempty; assumption).
  destruct (sample_min_at_most sample 0 Hne ltac:(lra))
    as [Hlo [Hhi [Hall [_ Hin0]]]].
  exists (nth 0 (Rsort sample) 0), (nth (length sample - 1) (Rsort sample) 0).
  split; [exact Hlo|]. split; [exact Hhi|]. split; [exact Hall|]. split.
  - rewrite get_var_cvar_finite by (auto; lra). fold sample.
    pose proof (sample_cvar_bounds sample 0 Hne ltac:(lra)) as Hb.
    rewrite sample_var_0 in *.
    do 3 f_equal. lra.
  - rewrite get_var_cvar_finite by (auto; lra). fold sample.
    unfold sample_cvar. rewrite sample_var_1.
    rewrite at_most_all by (intros x Hx; apply Hall; exact Hx).
    reflexivity.
Qed.

Lemma get_var_cvar_extreme_levels_witness :
  exists lo hi : R,
    In lo (historical_sample scenario_prices 2)
    /\ In hi (historical_sample scenario_prices 2)
    /\ (forall x, In x (historical_sample scenario_prices 2) -> lo <= x <= hi)
    /\ get_var_cvar (finite_frame scenario_prices) 2 0 = Returned (Fin lo, Fin lo)
    /\ get_var_cvar (finite_frame scenario_prices) 2 1
       = Returned (Fin hi, Fin (Rmean (historical_sample scenario_prices 2))).
Proof.
  apply (get_var_cvar_extreme_levels scenario_prices 2).
  - exact scenario_prices_positive.
  - lia.
  - simpl. lia.
Defined.

(** ** Levels and volatilities the libraries reject *)

Lemma np_quantile_invalid_level (a : list npfloat) (p : R) :
  p < 0 \/ 1 < p -> np_quantile a p = Raised ValueError.
Proof.
  intros Hp. unfold np_quantile.
  destruct Hp as [Hp|Hp].
  - rewrite (Rleb_false 0 p) by assumption. reflexivity.
  - rewrite (Rleb_false p 1) by assumption. rewrite andb_false_r. reflexivity.
Qed.

(** X7.  A level outside [[0, 1]] makes both estimators fail with the
    [ValueError] of [np.quantile], whatever the prices, the window, the draws
    and the other parameters are. *)
Theorem invalid_level_raises (p : R) :
  p < 0 \/ 1 < p ->
  (forall (df : Frame) (w : nat), get_var_cvar df w p = Raised ValueError)
  /\ (forall (draw : nat -> nat -> R) (mu vol dT : npfloat)
             (periods simulations : nat),
        MonteCarloVar draw mu vol dT periods simulations p = Raised ValueError).
Proof.
  intros Hp. split.
  - intros df w. unfold get_var_cvar. rewrite get_log_returns_eq. cbn [bind].
    rewrite np_quantile_invalid_level by assumption. reflexivity.
  - intros draw mu vol dT periods simulations.
    unfold MonteCarloVar, np_random_normal.
    destruct (fsign (fmul vol (fsqrt dT))) as [[| |]|]; cbn [bind];
      try reflexivity;
      rewrite np_quantile_invalid_level by assumption; reflexivity.
Qed.

Lemma invalid_level_raises_witness :
  get_var_cvar (finite_frame scenario_prices) 2 (3 / 2) = Raised ValueError
  /\ MonteCarloVar (fun _ _ => 0) (Fin 0) (Fin 1) (Fin 1) 1 1 (- (1)) = Raised ValueError.
Proof.
  split.
  - apply (proj1 (invalid_level_raises (3 / 2) ltac:(right; lra))).
  - apply (proj2 (invalid_level_raises (- (1)) ltac:(left; lra))).
Defined.

(** X8.  A negative volatility over a positive time step makes
    [MonteCarloVar] fail with the [ValueError] of [np.random.normal]; no
    sample is drawn and no estimate returned. *)
Theorem MonteCarloVar_negative_volatility
  (draw : nat -> nat -> R) (mu : npfloat) (vol dT : R)
  (periods simulations : nat) (p : R) :
  vol < 0 -> 0 < dT ->
  MonteCarloVar draw mu (Fin vol) (Fin dT) periods simulations p
  = Raised ValueError.
Proof.
  intros Hvol HdT. unfold MonteCarloVar, np_random_normal.
  assert (Hsq : 0 < sqrt dT) by (apply sqrt_lt_R0; assumption).
  cbn [fsqrt]. rewrite (Rcompare_gt dT 0) by assumption.
  cbn [fmul fsign]. rewrite Rcompare_lt by nra.
  reflexivity.
Qed.

Lemma MonteCarloVar_negative_volatility_witness :
  MonteCarloVar (fun _ _ => 0) (Fin 0) (Fin (- (1))) (Fin 1) 7 100 (1 / 20)
  = Raised ValueError.
Proof.
  apply MonteCarloVar_negative_volatility; lra.
Defined.

(** ** Samples that do not vary *)

Lemma sample_constant (sample : list R) (c p : R) :
  sample <> [] -> 0 <= p <= 1 -> (forall x, In x sample -> x = c) ->
  sample_var sample p = c /\ sample_cvar sample p = c.
Proof.
  intros Hne Hp Hall.
  destruct (sample_min_at_most sample p Hne Hp) as [Hlo [Hhi [_ [Hq _]]]].
  pose proof (sample_cvar_bounds sample p Hne Hp) as Hb.
  rewrite (Hall _ Hlo) in *. rewrite (Hall _ Hhi) in *.
  split; lra.
Qed.

Lemma Rsum_constant (c : R) (n : nat) (f : nat -> R) (a : nat) :
  (forall j, f j = c) -> Rsum (map f (seq a n)) = INR n * c.
Proof.
  intros Hf. revert a. induction n as [|n IH]; intros a.
  - simpl. ring.
  - cbn [seq map]. change (Rsum (?x :: ?l)) with (x + Rsum l).
    rewrite IH, Hf, S_INR. ring.
Qed.

(** X9.  With zero volatility every simulated path is the drift alone, and
    [MonteCarloVar] returns var = cvar = periods * mu * dT, for every level
    in [[0, 1]] and whatever the draws. *)
Theorem MonteCarloVar_zero_volatility
  (draw : nat -> nat -> R) (mu dT : R) (periods simulations : nat) (p : R) :
  0 <= dT -> (1 <= simulations)%nat -> 0 <= p <= 1 ->
  exists sim_returns : Frame,
    MonteCarloVar draw (Fin mu) (Fin 0) (Fin dT) periods simulations p
    = Returned (sim_returns,
                Fin (INR periods * (mu * dT)), Fin (INR periods * (mu * dT))).
Proof.
  intros HdT Hsim Hp.
  set (sample := mc_sample draw mu 0 dT periods simulations).
  exists (finite_frame (mc_rows sample)).
  rewrite MonteCarloVar_finite by (auto; lra). fold sample.
  assert (Hall : forall x, In x sample -> x = INR periods * (mu * dT)).
  { intros x Hx. unfold sample, mc_sample in Hx. apply in_map_iff in Hx.
    destruct Hx as [i [Hx _]]. rewrite <- Hx.
    apply Rsum_constant. intros j. ring. }
  destruct (sample_constant sample _ p
              (mc_sample_nonempty draw mu 0 dT periods simulations Hsim) Hp Hall)
    as [Hv Hc].
  rewrite Hv, Hc. reflexivity.
Qed.

Lemma MonteCarloVar_zero_volatility_witness :
  exists sim_returns : Frame,
    MonteCarloVar (fun i j => INR i + INR j) (Fin 2) (Fin 0) (Fin 1) 7 100 (1 / 20)
    = Returned (sim_returns, Fin (INR 7 * (2 * 1)), Fin (INR 7 * (2 * 1))).
Proof.
  apply (MonteCarloVar_zero_volatility (fun i j => INR i + INR j) 2 1 7 100 (1 / 20)).
  - lra.
  - lia.
  - lra.
Defined.

(** X10.  Flat prices carry no risk: when every price is the same positive
    number, [get_var_cvar] returns var = cvar = 0 for every window that fits
    and every level in [[0, 1]]. *)
Theorem get_var_cvar_flat_prices (prices : list (Timestamp * R)) (c : R)
  (w : nat) (p : R) :
  0 < c ->
  (forall row, In row prices -> snd row = c) ->
  (1 <= w)%nat ->
  (w + 1 <= length prices)%nat ->
  0 <= p <= 1 ->
  get_var_cvar (finite_frame prices) w p = Returned (Fin 0, Fin 0).
Proof.
  intros Hc Hflat Hw Hlen Hp.
  assert (Hpos : positive_prices prices).
  { unfold positive_prices. apply Forall_forall. intros row Hrow.
    rewrite (Hflat row Hrow). assumption. }
  assert (Hlen' : (w <= length (log_return_series prices))%nat)
    by (rewrite length_log_return_series; lia).
  rewrite get_var_cvar_finite by assumption.
  assert (Hall : forall x, In x (historical_sample prices w) -> x = 0).
  { intros x Hx. unfold historical_sample, rolling_sum_series in Hx.
    rewrite map_map in Hx. apply in_map_iff in Hx.
    destruct Hx as [k [Hx Hk]]. apply in_seq in Hk.
    rewrite length_log_return_series in Hk. cbn [snd] in Hx.
    rewrite <- Hx, Rsum_log_returns_window by (auto; lia).
    rewrite (Hflat (nth (k + w) prices (0%Z, 0))) by (apply nth_In; lia).
    rewrite (Hflat (nth k prices (0%Z, 0))) by (apply nth_In; lia).
    replace (c / c) with 1 by (field; lra). apply ln_1. }
  destruct (sample_constant (historical_sample prices w) 0 p
              (historical_sample_nonempty prices w Hw Hlen') Hp Hall) as [Hv Hcv].
  rewrite Hv, Hcv. reflexivity.
Qed.

Lemma get_var_cvar_flat_prices_witness :
  get_var_cvar (finite_frame [(0%Z, 50); (1%Z, 50); (2%Z, 50)]) 1 (1 / 20)
  = Returned (Fin 0, Fin 0).
Proof.
  apply (get_var_cvar_flat_prices [(0%Z, 50); (1%Z, 50); (2%Z, 50)] 50 1 (1 / 20)).
  - lra.
  - intros row [H|[H|[H|[]]]]; subst; reflexivity.
  - lia.
  - simpl. lia.
  - lra.
Defined.

(** ** Shifting a sample *)

Lemma Rleb_shift (x y c : R) : Rleb (x + c) (y + c) = Rleb x y.
Proof.
  destruct (Rle_dec x y) as [H|H].
  - rewrite !Rleb_true by lra. reflexivity.
  - rewrite !Rleb_false by lra. reflexivity.
Qed.

Lemma Rinsert_shift (c x : R) (l : list R) :
  Rinsert (x + c) (shift_sample c l) = shift_sample c (Rinsert x l).
Proof.
  unfold shift_sample. induction l as [|y l IH]; [reflexivity|].
  cbn [map Rinsert]. rewrite Rleb_shift.
  destruct (Rleb x y); cbn [map]; [reflexivity|].
  rewrite IH. reflexivity.
Qed.

Lemma Rsort_shift (c : R) (l : list R) :
  Rsort (shift_sample c l) = shift_sample c (Rsort l).
Proof.
  induction l as [|x l IH]; [reflexivity|].
  change (Rsort (shift_sample c (x :: l)))
    with (Rinsert (x + c) (Rsort (shift_sample c l))).
  rewrite IH. apply Rinsert_shift.
Qed.

Lemma nth_shift_sample (c : R) (l : list R) (j : nat) :
  (j < length l)%nat -> nth j (shift_sample c l) 0 = nth j l 0 + c.
Proof.
  intros Hj. unfold shift_sample.
  rewrite (nth_indep _ 0 (0 + c)) by (rewrite length_map; assumption).
  apply (map_nth (fun x => x + c)).
Qed.

Lemma quantile_type7_shift (c : R) (s : list R) (p : R) :
  s <> [] -> 0 <= p <= 1 ->
  quantile_type7 (shift_sample c s) p = quantile_type7 s p + c.
Proof.
  intros Hne Hp.
  assert (Hn : (1 <= length s)%nat) by (destruct s; [congruence | simpl; lia]).
  destruct (quantile_rank_bound (length s) p Hn Hp) as [Hj [Hg Hlast]].
  unfold quantile_type7, shift_sample. rewrite length_map.
  fold (shift_sample c s).
  set (h := INR (length s - 1) * p) in *. set (j := floor_nat h) in *.
  rewrite (nth_shift_sample c s j) by lia.
  destruct (Nat.eq_dec j (length s - 1)) as [Heq|Hlt].
  - rewrite (Hlast Heq). ring.
  - rewrite (nth_shift_sample c s (j + 1)) by lia. ring.
Qed.

Lemma at_most_shift (c v : R) (l : list R) :
  at_most (v + c) (shift_sample c l) = shift_sample c (at_most v l).
Proof.
  unfold at_most, shift_sample. induction l as [|x l IH]; [reflexivity|].
  cbn [map filter]. rewrite Rleb_shift.
  destruct (Rleb x v); cbn [map]; rewrite IH; reflexivity.
Qed.

Lemma Rsum_shift (c : R) (l : list R) :
  Rsum (shift_sample c l) = Rsum l + INR (length l) * c.
Proof.
  unfold shift_sample. induction l as [|x l IH]; [simpl; ring|].
  cbn [map]. change (Rsum (?a :: ?t)) with (a + Rsum t).
  change (length (x :: l)) with (S (length l)). rewrite IH, S_INR. ring.
Qed.

Lemma Rmean_shift (c : R) (l : list R) :
  l <> [] -> Rmean (shift_sample c l) = Rmean l + c.
Proof.
  intros Hne. unfold Rmean. rewrite Rsum_shift.
  unfold shift_sample. rewrite length_map.
  assert (Hlen : 0 < INR (length l)).
  { apply lt_0_INR. destruct l; [congruence | simpl; lia]. }
  field. lra.
Qed.

(** Quantile and tail mean move with the sample. *)
Lemma sample_risk_shift (c : R) (sample : list R) (p : R) :
  sample <> [] -> 0 <= p <= 1 ->
  sample_var (shift_sample c sample) p = sample_var sample p + c
  /\ sample_cvar (shift_sample c sample) p = sample_cvar sample p + c.
Proof.
  intros Hne Hp.
  assert (Hv : sample_var (shift_sample c sample) p = sample_var sample p + c).
  { unfold sample_var. rewrite Rsort_shift. apply quantile_type7_shift; [|assumption].
    intros Heq. pose proof (length_Rsort sample) as Hl. rewrite Heq in Hl.
    destruct sample; [congruence | discriminate]. }
  split; [exact Hv|].
  unfold sample_cvar. rewrite Hv, at_most_shift. apply Rmean_shift.
  destruct (sample_min_at_most sample p Hne Hp) as [_ [_ [_ [_ Hin]]]].
  intros Heq. fold (sample_var sample p) in Heq. rewrite Heq in Hin. destruct Hin.
Qed.

Lemma mc_sample_drift (draw : nat -> nat -> R) (mu delta vol dT : R)
  (periods simulations : nat) :
  mc_sample draw (mu + delta) vol dT periods simulations
  = shift_sample (INR periods * (delta * dT))
      (mc_sample draw mu vol dT periods simulations).
Proof.
  unfold mc_sample, shift_sample. rewrite map_map. apply map_ext. intros i.
  generalize 0%nat. induction periods as [|n IH]; intros a.
  - simpl. ring.
  - cbn [seq map]. change (Rsum (?x :: ?l)) with (x + Rsum l).
    rewrite IH, S_INR. ring.
Qed.

(** X11.  On the same draws, raising the drift by [delta] moves the Monte
    Carlo var and cvar by exactly [periods * delta * dT]: the estimate is the
    zero-drift estimate plus the drift over the horizon. *)
Theorem MonteCarloVar_drift_shift
  (draw : nat -> nat -> R) (mu delta vol dT : R)
  (periods simulations : nat) (p : R) :
  0 <= vol -> 0 <= dT -> (1 <= simulations)%nat -> 0 <= p <= 1 ->
  exists (sim_returns sim_returns' : Frame) (var cvar : R),
    MonteCarloVar draw (Fin mu) (Fin vol) (Fin dT) periods simulations p
    = Returned (sim_returns, Fin var, Fin cvar)
    /\ MonteCarloVar draw (Fin (mu + delta)) (Fin vol) (Fin dT) periods simulations p
       = Returned (sim_returns',
                   Fin (var + INR periods * (delta * dT)),
                   Fin (cvar + INR periods * (delta * dT))).
Proof.
  intros Hvol HdT Hsim Hp.
  set (sample := mc_sample draw mu vol dT periods simulations).
  exists (finite_frame (mc_rows sample)),
         (finite_frame (mc_rows (mc_sample draw (mu + delta) vol dT periods simulations))),
         (sample_var sample p), (sample_cvar sample p).
  split; [apply MonteCarloVar_finite; assumption|].
  rewrite MonteCarloVar_finite by assumption.
  rewrite mc_sample_drift. fold sample.
  destruct (sample_risk_shift (INR periods * (delta * dT)) sample p
              (mc_sample_nonempty draw mu vol dT periods simulations Hsim) Hp)
    as [Hv Hc].
  rewrite Hv, Hc. reflexivity.
Qed.

Lemma MonteCarloVar_drift_shift_witness :
  exists (sim_returns sim_returns' : Frame) (var cvar : R),
    MonteCarloVar (fun i j => INR i - INR j) (Fin 0) (Fin 1) (Fin 1) 2 3 (1 / 20)
    = Returned (sim_returns, Fin var, Fin cvar)
    /\ MonteCarloVar (fun i j => INR i - INR j) (Fin (0 + 5)) (Fin 1) (Fin 1) 2 3 (1 / 20)
       = Returned (sim_returns',
                   Fin (var + INR 2 * (5 * 1)), Fin (cvar + INR 2 * (5 * 1))).
Proof.
  apply (MonteCarloVar_drift_shift (fun i j => INR i - INR j) 0 5 1 1 2 3 (1 / 20)).
  - lra.
  - lra.
  - lia.
  - lra.
Defined.

(** ** The pricer at the edge of its domain *)

Lemma put_black_scholes_expiry_aux (S0 K sigma r : R) :
  0 < S0 -> 0 < K -> 0 < sigma ->
  put_black_scholes (Fin S0) (Fin K) (Fin sigma) (Fin r) (Fin 0)
  = Returned match Rcompare S0 K with
             | Eq => NaN
             | Gt => Fin 0
             | Lt => Fin (K - S0)
             end.
Proof.
  intros HS HK Hsig. unfold put_black_scholes.
  rewrite call_black_scholes_expiry by assumption.
  destruct (Rcompare S0 K); cbn [bind fsub fadd fneg fmul fexp].
  - reflexivity.
  - replace (- r * 0) with 0 by ring. rewrite exp_0. do 2 f_equal. ring.
  - replace (- r * 0) with 0 by ring. rewrite exp_0. do 2 f_equal. ring.
Qed.

(** X12.  At expiry (T = 0, with sigma > 0) [put_black_scholes] returns the
    payoff of the put away from the money, K - S0 when S0 < K and 0 when
    S0 > K, and [nan] at the money. *)
Theorem put_black_scholes_expiry (S0 K sigma r : R) :
  0 < S0 -> 0 < K -> 0 < sigma ->
  put_black_scholes (Fin S0) (Fin K) (Fin sigma) (Fin r) (Fin 0)
  = Returned match Rcompare S0 K with
             | Eq => NaN
             | Gt => Fin 0
             | Lt => Fin (K - S0)
             end.
Proof.
  apply put_black_scholes_expiry_aux.
Qed.

Lemma put_black_scholes_expiry_witness :
  put_black_scholes (Fin 90) (Fin 100) (Fin (1 / 5)) (Fin (1 / 100)) (Fin 0)
  = Returned match Rcompare 90 100 with
             | Eq => NaN
             | Gt => Fin 0
             | Lt => Fin (100 - 90)
             end.
Proof.
  apply (put_black_scholes_expiry 90 100 (1 / 5) (1 / 100)); lra.
Defined.

Lemma ln_forward_sign (S0 K r T : R) :
  0 < S0 -> 0 < K ->
  Rcompare (ln (S0 / K) + T * (r + 1 / 2 * (0 * 0))) 0
  = Rcompare S0 (K * exp (- (r * T))).
Proof.
  intros HS HK.
  assert (HD : 0 < K * exp (- (r * T)))
    by (apply Rmult_lt_0_compat; [assumption | apply exp_pos]).
  assert (Hm : ln (S0 / K) + T * (r + 1 / 2 * (0 * 0))
               = ln S0 - ln (K * exp (- (r * T)))).
  { rewrite ln_ratio by assumption.
    rewrite ln_mult by (try apply exp_pos; assumption).
    rewrite ln_exp. ring. }
  rewrite Hm.
  destruct (Rcompare_spec S0 (K * exp (- (r * T)))) as [Heq | Hlt | Hgt].
  - rewrite Heq. rewrite Rminus_diag. apply Rcompare_eq.
  - apply Rcompare_lt. apply (ln_increasing _ _ HS) in Hlt. lra.
  - apply Rcompare_gt. apply (ln_increasing _ _ HD) in Hgt. lra.
Qed.

(** X13.  With zero volatility and T > 0 [call_black_scholes] returns the
    value of the forward: S0 - K exp(-rT) when the spot is above the
    discounted strike, 0 when it is below, and [nan] when the two are
    equal. *)
Theorem call_black_scholes_zero_volatility (S0 K r T : R) :
  0 < S0 -> 0 < K -> 0 < T ->
  call_black_scholes (Fin S0) (Fin K) (Fin 0) (Fin r) (Fin T)
  = Returned match Rcompare S0 (K * exp (- (r * T))) with
             | Eq => NaN
             | Gt => Fin (S0 - K * exp (- (r * T)))
             | Lt => Fin 0
             end.
Proof.
  intros HS HK HT.
  assert (Hratio : 0 < S0 / K) by (apply Rdiv_lt_0_compat; assumption).
  unfold call_black_scholes.
  cbn [fsqrt]. rewrite (Rcompare_gt T 0) by assumption.
  cbn [fmul]. rewrite (Rmult_0_l (sqrt T)).
  cbn [fdiv]. rewrite Rcompare_eq, (Rcompare_gt 1 0) by lra.
  rewrite (Rcompare_gt K 0) by assumption.
  cbn [flog inf_of_sign]. rewrite (Rcompare_gt (S0 / K) 0) by assumption.
  cbn [fadd fmul fneg fexp fsign].
  rewrite ln_forward_sign by assumption.
  replace (- r * T) with (- (r * T)) by ring.
  destruct (Rcompare S0 (K * exp (- (r * T))));
    cbn [sign_mul inf_of_sign fsub fneg fadd norm_cdf fmul].
  - reflexivity.
  - do 2 f_equal. ring.
  - do 2 f_equal. ring.
Qed.

Lemma call_black_scholes_zero_volatility_witness :
  call_black_scholes (Fin 100) (Fin 90) (Fin 0) (Fin 0) (Fin 1)
  = Returned match Rcompare 100 (90 * exp (- (0 * 1))) with
             | Eq => NaN
             | Gt => Fin (100 - 90 * exp (- (0 * 1)))
             | Lt => Fin 0
             end.
Proof.
  apply (call_black_scholes_zero_volatility 100 90 0 1); lra.
Defined.

(** X14.  With a zero strike (and S0, sigma, T > 0) the call is worth the
    spot and the put is worth nothing: the division by the strike gives
    [+inf], both distribution values are 1, and no error is raised. *)
Theorem black_scholes_zero_strike (S0 sigma r T : R) :
  0 < S0 -> 0 < sigma -> 0 < T ->
  call_black_scholes (Fin S0) (Fin 0) (Fin sigma) (Fin r) (Fin T)
  = Returned (Fin S0)
  /\ put_black_scholes (Fin S0) (Fin 0) (Fin sigma) (Fin r) (Fin T)
     = Returned (Fin 0).
Proof.
  intros HS Hsig HT.
  assert (Hsq : 0 < sqrt T) by (apply sqrt_lt_R0; assumption).
  assert (Hden : 0 < sigma * sqrt T) by (apply Rmult_lt_0_compat; assumption).
  assert (Hscale : 0 < 1 / (sigma * sqrt T)).
  { apply Rdiv_lt_0_compat; [lra | assumption]. }
  assert (Hcall : call_black_scholes (Fin S0) (Fin 0) (Fin sigma) (Fin r) (Fin T)
                  = Returned (Fin S0)).
  { unfold call_black_scholes.
    cbn [fsqrt]. rewrite (Rcompare_gt T 0) by assumption.
    cbn [fmul fdiv]. rewrite (Rcompare_gt (sigma * sqrt T) 0) by assumption.
    rewrite Rcompare_eq, (Rcompare_gt S0 0) by assumption.
    cbn [inf_of_sign flog fadd fmul fsign].
    rewrite (Rcompare_gt _ 0 Hscale).
    cbn [sign_mul inf_of_sign fsub fneg fadd norm_cdf fmul fexp].
    do 2 f_equal. ring. }
  split; [exact Hcall|].
  unfold put_black_scholes. rewrite Hcall.
  cbn [bind fsub fadd fneg fmul fexp]. do 2 f_equal. ring.
Qed.

Lemma black_scholes_zero_strike_witness :
  call_black_scholes (Fin 100) (Fin 0) (Fin (1 / 5)) (Fin (1 / 100)) (Fin 1)
  = Returned (Fin 100)
  /\ put_black_scholes (Fin 100) (Fin 0) (Fin (1 / 5)) (Fin (1 / 100)) (Fin 1)
     = Returned (Fin 0).
Proof.
  apply (black_scholes_zero_strike 100 (1 / 5) (1 / 100) 1); lra.
Defined.

(** ** What each forecast is made from *)

Lemma nth_iloc_set_same (i : nat) (v d : npfloat) (a : list npfloat) :
  (i < length a)%nat -> nth i (iloc_set i v a) d = v.
Proof.
  revert i. induction a as [|x a IH]; intros [|i] Hi; simpl in *; try lia; auto.
  apply IH. lia.
Qed.

Lemma nth_iloc_set_other (i k : nat) (v d : npfloat) (a : list npfloat) :
  k <> i -> nth k (iloc_set i v a) d = nth k a d.
Proof.
  revert i k. induction a as [|x a IH]; intros [|i] [|k] Hk; simpl; auto; try lia.
Qed.

Lemma firstn_plus_skipn {A : Type} (a k : nat) (l : list A) :
  firstn a l ++ firstn k (skipn a l) = firstn (a + k) l.
Proof.
  revert l. induction a as [|a IH]; intros l; [reflexivity|].
  destruct l as [|x l]; [rewrite !firstn_nil; reflexivity|].
  cbn [firstn skipn Nat.add app]. rewrite IH. reflexivity.
Qed.

Section WalkForwardForecasts.

Variable ARCHModelResult : Type.
Variable arch_fit : list npfloat -> nat -> nat -> outcome ARCHModelResult.
Variable forecast_variance : ARCHModelResult -> outcome npfloat.
Variable testing : Frame.
Variables p_garch q_garch : nat.

Let step := walk_step ARCHModelResult arch_fit forecast_variance testing p_garch q_garch.

(** Loop invariant on the forecasts: the pass at row [k] stores the square
    root of the variance forecast by the model fitted on the rows gathered
    before row [k]; earlier entries are left alone; and the model in hand is
    always the one fitted on the rows gathered so far. *)
Lemma for_range_walk_forecasts (n i : nat) (st st' : walk_state ARCHModelResult) :
  for_range step i n st = Returned st' ->
  (i + n <= length (forcasted_values st))%nat ->
  arch_fit (to_numpy (conditional_training_data st)) p_garch q_garch
  = Returned (model_fit st) ->
  (forall k, (i <= k < i + n)%nat ->
     exists m v,
       arch_fit (to_numpy (conditional_training_data st
                           ++ firstn (k - i) (skipn i testing)))
         p_garch q_garch = Returned m
       /\ forecast_variance m = Returned v
       /\ nth k (forcasted_values st') NaN = fsqrt v)
  /\ (forall k, (k < i)%nat ->
        nth k (forcasted_values st') NaN = nth k (forcasted_values st) NaN)
  /\ arch_fit (to_numpy (conditional_training_data st')) p_garch q_garch
     = Returned (model_fit st').
Proof.
  revert i st. induction n as [|n IH]; intros i st Hrun Hlen Hfit.
  - simpl in Hrun. inversion Hrun; subst.
    split; [intros k Hk; lia|]. split; [reflexivity | exact Hfit].
  - simpl in Hrun. unfold step at 1, walk_step in Hrun.
    destruct (forecast_variance (model_fit st)) as [prediction|e] eqn:Hpred;
      [|discriminate].
    cbn [bind] in Hrun.
    match type of Hrun with
    | context [arch_fit ?y _ _] =>
        destruct (arch_fit y p_garch q_garch) as [fit|e] eqn:Hfit'; [|discriminate]
    end.
    cbn [bind] in Hrun.
    apply IH in Hrun; cbn [conditional_training_data forcasted_values model_fit].
    + cbn [conditional_training_data forcasted_values model_fit] in Hrun.
      destruct Hrun as [Hlater [Hearlier Hlast]].
      split; [|split; [|exact Hlast]].
      * intros k Hk. destruct (Nat.eq_dec k i) as [->|Hne].
        -- exists (model_fit st), prediction.
           rewrite Nat.sub_diag. cbn [firstn]. rewrite app_nil_r.
           split; [exact Hfit|]. split; [exact Hpred|].
           rewrite Hearlier by lia. apply nth_iloc_set_same. lia.
        -- destruct (Hlater k ltac:(lia)) as [m [v [Hm [Hv Hnth]]]].
           exists m, v. split; [|split; assumption].
           rewrite <- Hm, <- app_assoc. unfold iloc_slice.
           replace (i + 1 - i)%nat with 1%nat by lia.
           rewrite firstn_succ_skipn.
           replace (S (k - S i)) with (k - i)%nat by lia. reflexivity.
      * intros k Hk. rewrite Hearlier by lia.
        apply nth_iloc_set_other. lia.
    + rewrite length_iloc_set. lia.
    + exact Hfit'.
Qed.

End WalkForwardForecasts.

(** A run that comes out of the loop has gathered the whole input frame and
    holds one forecast per test row. *)
Lemma walk_loop_returned
  (ARCHModelResult : Type)
  (arch_fit : list npfloat -> nat -> nat -> outcome ARCHModelResult)
  (forecast_variance : ARCHModelResult -> outcome npfloat)
  (data : Frame) (p_garch q_garch : nat) (st : walk_state ARCHModelResult) :
  walk_loop ARCHModelResult arch_fit forecast_variance data p_garch q_garch
  = Returned st ->
  conditional_training_data st = data
  /\ length (forcasted_values st) = length (testing_data data)
  /\ (forall k, (k < length (testing_data data))%nat ->
        exists m v,
          arch_fit (to_numpy (firstn (split_point (length data) + k) data))
            p_garch q_garch = Returned m
          /\ forecast_variance m = Returned v
          /\ nth k (forcasted_values st) NaN = fsqrt v)
  /\ arch_fit (to_numpy data) p_garch q_garch = Returned (model_fit st).
Proof.
  intros Hrun. unfold walk_loop in Hrun.
  destruct (arch_fit (to_numpy (training_data data)) p_garch q_garch)
    as [fit0|e] eqn:Hfit0; [|discriminate].
  cbn [bind] in Hrun.
  pose proof (for_range_walk_step _ _ _ _ _ _ _ _ _ _ Hrun) as [Hcond Hlen].
  pose proof (for_range_walk_forecasts _ _ _ _ _ _ _ _ _ _ Hrun) as Hinv.
  cbn [conditional_training_data forcasted_values model_fit] in Hcond, Hlen, Hinv.
  rewrite length_map in Hlen, Hinv.
  destruct (Hinv ltac:(lia) Hfit0) as [Hfore [_ Hlast]].
  assert (Hdata : conditional_training_data st = data).
  { rewrite Hcond. change (skipn 0 (testing_data data)) with (testing_data data).
    rewrite firstn_all. apply firstn_skipn. }
  split; [exact Hdata|]. split; [exact Hlen|]. split.
  - intros k Hk. destruct (Hfore k ltac:(lia)) as [m [v [Hm [Hv Hnth]]]].
    exists m, v. split; [|split; assumption].
    rewrite <- Hm, Nat.sub_0_r.
    change (skipn 0 (testing_data data)) with (testing_data data).
    unfold training_data, testing_data. rewrite firstn_plus_skipn. reflexivity.
  - rewrite <- Hdata at 1. exact Hlast.
Qed.

(** X15.  No look-ahead: in a walk-forward run that comes out of its loop,
    the forecast stored for test row [k] is the square root of the variance
    forecast by the model fitted on the rows before it, the first
    [split + k] rows of the input; and the model left in hand is the one
    fitted on the whole input. *)
Theorem walk_forward_no_look_ahead
  (ARCHModelResult : Type)
  (arch_fit : list npfloat -> nat -> nat -> outcome ARCHModelResult)
  (forecast_variance : ARCHModelResult -> outcome npfloat)
  (data : Frame) (p_garch q_garch : nat) (st : walk_state ARCHModelResult) :
  walk_loop ARCHModelResult arch_fit forecast_variance data p_garch q_garch
  = Returned st ->
  (forall k, (k < length (testing_data data))%nat ->
     exists m v,
       arch_fit (to_numpy (firstn (split_point (length data) + k) data))
         p_garch q_garch = Returned m
       /\ forecast_variance m = Returned v
       /\ nth k (forcasted_values st) NaN = fsqrt v)
  /\ arch_fit (to_numpy data) p_garch q_garch = Returned (model_fit st).
Proof.
  intros Hrun.
  destruct (walk_loop_returned _ _ _ _ _ _ _ Hrun) as [_ [_ [Hfore Hlast]]].
  split; assumption.
Qed.

Lemma walk_forward_no_look_ahead_witness :
  exists st,
    walk_loop nat counting_fit counting_forecast toy_frame 1 1 = Returned st
    /\ (exists m v,
          counting_fit (to_numpy (firstn (split_point 5 + 0) toy_frame)) 1 1
          = Returned m
          /\ counting_forecast m = Returned v
          /\ nth 0 (forcasted_values st) NaN = fsqrt v)
    /\ counting_fit (to_numpy toy_frame) 1 1 = Returned (model_fit st).
Proof.
  eexists. split; [reflexivity|].
  destruct (walk_forward_no_look_ahead nat counting_fit counting_forecast
              toy_frame 1 1 _ eq_refl) as [Hfore Hlast].
  split; [|exact Hlast].
  apply (Hfore 0%nat). simpl. lia.
Defined.

(** ** The most recent forecast *)

Lemma split_point_lt (n : nat) : (1 <= n)%nat -> (split_point n < n)%nat.
Proof.
  intros Hn. unfold split_point.
  apply Nat.Div0.div_lt_upper_bound. lia.
Qed.

Lemma length_testing_data (data : Frame) :
  length (testing_data data) = (length data - split_point (length data))%nat.
Proof. unfold testing_data. apply length_skipn. Qed.

Lemma last_nth_pred {A : Type} (l : list A) (d : A) :
  last l d = nth (length l - 1) l d.
Proof.
  induction l as [|x [|y l] IH]; try reflexivity.
  change (last (x :: y :: l) d) with (last (y :: l) d). rewrite IH.
  simpl. rewrite Nat.sub_0_r. reflexivity.
Qed.

Lemma iloc_last_map (f : npfloat -> npfloat) (a : list npfloat) :
  a <> [] -> iloc_last (map f a) = Returned (f (nth (length a - 1) a NaN)).
Proof.
  intros Hne. destruct a as [|x a]; [congruence|].
  unfold iloc_last. cbn [map].
  change (f x :: map f a) with (map f (x :: a)).
  rewrite last_nth_pred, length_map.
  rewrite (nth_indep _ NaN (f NaN)) by (rewrite length_map; simpl; lia).
  rewrite map_nth. reflexivity.
Qed.

(** X16.  After a walk-forward run that comes out of its loop, the most
    recent forecast VaR (line 500) exists exactly when the input frame has a
    row: on an empty frame [iloc[-1]] raises [IndexError]; otherwise the
    value is exp(sqrt(v) / 1000 * ppf(0.05)) for the variance [v] forecast
    by the model fitted on every row but the last. *)
Theorem most_recent_forecast
  (ARCHModelResult : Type)
  (arch_fit : list npfloat -> nat -> nat -> outcome ARCHModelResult)
  (forecast_variance : ARCHModelResult -> outcome npfloat)
  (data : Frame) (p_garch q_garch : nat) (st : walk_state ARCHModelResult) :
  walk_loop ARCHModelResult arch_fit forecast_variance data p_garch q_garch
  = Returned st ->
  (data = [] ->
   most_recent_forecasted_var (forcasted_values st) = Raised IndexError)
  /\ (data <> [] ->
      exists m v,
        arch_fit (to_numpy (removelast data)) p_garch q_garch = Returned m
        /\ forecast_variance m = Returned v
        /\ most_recent_forecasted_var (forcasted_values st)
           = Returned (fexp (fmul (fdiv (fsqrt v) (Fin 1000)) (norm_ppf (5 / 100))))).
Proof.
  intros Hrun.
  destruct (walk_loop_returned _ _ _ _ _ _ _ Hrun) as [_ [Hlen [Hfore _]]].
  rewrite length_testing_data in Hlen, Hfore.
  split.
  - intros ->. simpl in Hlen.
    destruct (forcasted_values st); [reflexivity | discriminate].
  - intros Hne.
    assert (Hn : (1 <= length data)%nat)
      by (destruct data; [congruence | simpl; lia]).
    pose proof (split_point_lt (length data) Hn) as Hsplit.
    destruct (Hfore (length data - split_point (length data) - 1)%nat ltac:(lia))
      as [m [v [Hm [Hv Hnth]]]].
    exists m, v.
    replace (split_point (length data)
             + (length data - split_point (length data) - 1))%nat
      with (length data - 1)%nat in Hm by lia.
    rewrite removelast_firstn_len, <- Nat.sub_1_r.
    split; [exact Hm|]. split; [exact Hv|].
    unfold most_recent_forecasted_var, forecasted_var. rewrite !map_map.
    rewrite iloc_last_map.
    + rewrite Hlen, Hnth. reflexivity.
    + intros Heq. rewrite Heq in Hlen. simpl in Hlen. lia.
Qed.

Lemma most_recent_forecast_witness :
  exists st,
    walk_loop nat counting_fit counting_forecast toy_frame 1 1 = Returned st
    /\ exists m v,
        counting_fit (to_numpy (removelast toy_frame)) 1 1 = Returned m
        /\ counting_forecast m = Returned v
        /\ most_recent_forecasted_var (forcasted_values st)
           = Returned (fexp (fmul (fdiv (fsqrt v) (Fin 1000)) (norm_ppf (5 / 100)))).
Proof.
  eexists. split; [reflexivity|].
  apply (proj2 (most_recent_forecast nat counting_fit counting_forecast
                  toy_frame 1 1 _ eq_refl)).
  discriminate.
Defined.

(** ** The blocks of main *)

(** X17.  On positive closing prices with a window that fits, the
    "Historical Var" block of [main] raises nothing and writes two finite
    percentages: value at risk (1 - exp(var)) * 100 and expected shortfall
    (1 - exp(cvar)) * 100, where var and cvar are what [get_var_cvar]
    returns at the 5% level; the shortfall is at least the value at risk and
    both are below 100. *)
Theorem main_historical_var_report (prices : list (Timestamp * R)) (w : nat) :
  positive_prices prices ->
  (1 <= w)%nat ->
  (w + 1 <= length prices)%nat ->
  exists (log_returns sums : Frame) (report : historical_report) (var cvar : R),
    main_returns (finite_frame prices) w = Returned (log_returns, sums)
    /\ main_historical_var sums = Returned report
    /\ get_var_cvar (finite_frame prices) w (5 / 100) = Returned (Fin var, Fin cvar)
    /\ value_at_risk report = Fin (exp var)
    /\ expected_shortfall report = Fin (exp cvar)
    /\ value_at_risk_percent report = Fin ((1 - exp var) * 100)
    /\ expected_shortfall_percent report = Fin ((1 - exp cvar) * 100)
    /\ (1 - exp var) * 100 <= (1 - exp cvar) * 100 < 100.
Proof.
  intros Hpos Hw Hlen.
  assert (Hlen' : (w <= length (log_return_series prices))%nat)
    by (rewrite length_log_return_series; lia).
  set (sample := historical_sample prices w).
  assert (Hne : rolling_sum_series w (log_return_series prices) <> []).
  { intros Heq. apply (historical_sample_nonempty prices w Hw Hlen').
    unfold historical_sample. rewrite Heq. reflexivity. }
  destruct (tail_risk_finite _ (5 / 100) Hne ltac:(lra)) as [Hq Hm].
  fold (historical_sample prices w) in Hq, Hm. fold sample in Hq, Hm.
  exists (finite_frame (log_return_series prices)),
         (finite_frame (rolling_sum_series w (log_return_series prices))),
         {| value_at_risk := Fin (exp (sample_var sample (5 / 100)));
            expected_shortfall := Fin (exp (sample_cvar sample (5 / 100)));
            value_at_risk_percent :=
              Fin ((1 - exp (sample_var sample (5 / 100))) * 100);
            expected_shortfall_percent :=
              Fin ((1 - exp (sample_cvar sample (5 / 100))) * 100) |},
         (sample_var sample (5 / 100)), (sample_cvar sample (5 / 100)).
  split.
  { unfold main_returns. rewrite get_log_returns_finite by assumption.
    cbn [bind]. rewrite rolling_sum_finite by assumption. reflexivity. }
  split.
  { unfold main_historical_var. rewrite Hq. cbn [bind]. rewrite Hm.
    reflexivity. }
  split; [apply get_var_cvar_finite; auto; lra|].
  repeat (split; [reflexivity|]).
  pose proof (sample_cvar_le_var sample (5 / 100)
                (historical_sample_nonempty prices w Hw Hlen') ltac:(lra)) as Hle.
  pose proof (exp_pos (sample_cvar sample (5 / 100))) as Hpos'.
  assert (Hexp : exp (sample_cvar sample (5 / 100))
                 <= exp (sample_var sample (5 / 100))).
  { destruct Hle as [Hlt|Heq]; [left; apply exp_increasing; exact Hlt|].
    rewrite Heq. lra. }
  lra.
Qed.

Lemma main_historical_var_report_witness :
  exists (log_returns sums : Frame) (report : historical_report) (var cvar : R),
    main_returns (finite_frame scenario_prices) 2 = Returned (log_returns, sums)
    /\ main_historical_var sums = Returned report
    /\ get_var_cvar (finite_frame scenario_prices) 2 (5 / 100)
       = Returned (Fin var, Fin cvar)
    /\ value_at_risk report = Fin (exp var)
    /\ expected_shortfall report = Fin (exp cvar)
    /\ value_at_risk_percent report = Fin ((1 - exp var) * 100)
    /\ expected_shortfall_percent report = Fin ((1 - exp cvar) * 100)
    /\ (1 - exp var) * 100 <= (1 - exp cvar) * 100 < 100.
Proof.
  apply (main_historical_var_report scenario_prices 2).
  - exact scenario_prices_positive.
  - lia.
  - simpl. lia.
Defined.

(** The returns and the historical block run through on positive prices
    with a window that fits. *)
Lemma main_historical_var_report_aux (prices : list (Timestamp * R)) (w : nat) :
  positive_prices prices ->
  (1 <= w)%nat ->
  (w + 1 <= length prices)%nat ->
  exists historical : historical_report,
    main_returns (finite_frame prices) w
    = Returned (finite_frame (log_return_series prices),
                finite_frame (rolling_sum_series w (log_return_series prices)))
    /\ main_historical_var
         (finite_frame (rolling_sum_series w (log_return_series prices)))
       = Returned historical.
Proof.
  intros Hpos Hw Hlen.
  assert (Hlen' : (w <= length (log_return_series prices))%nat)
    by (rewrite length_log_return_series; lia).
  assert (Hne : rolling_sum_series w (log_return_series prices) <> []).
  { intros Heq. apply (historical_sample_nonempty prices w Hw Hlen').
    unfold historical_sample. rewrite Heq. reflexivity. }
  destruct (tail_risk_finite _ (5 / 100) Hne ltac:(lra)) as [Hq Hm].
  eexists. split.
  - unfold main_returns. rewrite get_log_returns_finite by assumption.
    cbn [bind]. rewrite rolling_sum_finite by assumption. reflexivity.
  - unfold main_historical_var. rewrite Hq. cbn [bind]. reflexivity.
Qed.

Lemma Rsum_nonneg (l : list R) : (forall x, In x l -> 0 <= x) -> 0 <= Rsum l.
Proof.
  intros H. pose proof (Rsum_ge_bound 0 l H) as Hb. lra.
Qed.

Lemma Rvariance_nonneg (l : list R) : (2 <= length l)%nat -> 0 <= Rvariance l.
Proof.
  intros Hlen. unfold Rvariance.
  assert (Hn : 0 < INR (length l - 1)) by (apply lt_0_INR; lia).
  apply Rmult_le_pos; [|left; apply Rinv_0_lt_compat; assumption].
  apply Rsum_nonneg. intros x Hx. apply in_map_iff in Hx.
  destruct Hx as [y [<- _]]. exact (Rle_0_sqr (Rmean l - y)).
Qed.

(** On a finite frame of at least two rows [std] is the square root of the
    variance; on a frame of one row it is [nan]. *)
Lemma df_std_finite (rows : list (Timestamp * R)) :
  (2 <= length rows)%nat ->
  df_std (finite_frame rows) = Fin (Rstd (map snd rows)).
Proof.
  intros Hlen. unfold df_std.
  rewrite to_numpy_finite_frame, filter_not_nan_Fin.
  set (l := map snd rows).
  assert (Hl : (2 <= length l)%nat) by (unfold l; rewrite length_map; exact Hlen).
  assert (Hmatch : forall (v : list npfloat) (e : npfloat),
             (2 <= length v)%nat ->
             match v with
             | _ :: _ :: _ => e
             | _ => NaN
             end = e).
  { intros [|a [|b v]] e Hv; simpl in Hv; try lia. reflexivity. }
  rewrite Hmatch by (rewrite length_map; exact Hl).
  assert (Hn : 0 < INR (length l)) by (apply lt_0_INR; lia).
  assert (Hn1 : 0 < INR (length l - 1)) by (apply lt_0_INR; lia).
  rewrite fsum_Fin, length_map. cbn [fdiv].
  rewrite (Rcompare_gt _ 0 Hn).
  fold (Rmean l).
  rewrite map_map. cbn [fsub fneg fadd fmul].
  rewrite <- (map_map (fun x => (Rmean l + - x) * (Rmean l + - x)) Fin).
  rewrite fsum_Fin. cbn [fdiv]. rewrite (Rcompare_gt _ 0 Hn1).
  fold (Rmean l).
  assert (Hv : Rsum (map (fun x => (Rmean l + - x) * (Rmean l + - x)) l)
               / INR (length l - 1) = Rvariance l) by reflexivity.
  rewrite Hv. cbn [fsqrt].
  pose proof (Rvariance_nonneg l Hl) as Hvar.
  unfold Rstd.
  destruct (Rcompare_spec (Rvariance l) 0); try reflexivity. lra.
Qed.

Lemma df_std_single_row (t : Timestamp) (x : npfloat) : df_std [(t, x)] = NaN.
Proof. unfold df_std. cbn [to_numpy map snd filter]. destruct x; reflexivity. Qed.

Lemma df_mean_nonempty (rows : list (Timestamp * R)) :
  rows <> [] -> df_mean (finite_frame rows) = Fin (Rmean (map snd rows)).
Proof.
  intros Hne. rewrite df_mean_finite. destruct rows; [congruence | reflexivity].
Qed.

Lemma exp_le_compat (x y : R) : x <= y -> exp x <= exp y.
Proof.
  intros [Hlt|Heq]; [left; apply exp_increasing; exact Hlt | rewrite Heq; lra].
Qed.

(** The Monte Carlo block once the log-returns are finite and at least two. *)
Lemma main_monte_carlo_var_finite (draw : nat -> nat -> R)
  (returns : list (Timestamp * R)) (w simulations : nat) :
  (2 <= length returns)%nat -> (1 <= simulations)%nat ->
  let sample :=
    mc_sample draw (Rmean (map snd returns)) (Rstd (map snd returns)) 1 w simulations in
  main_monte_carlo_var draw (finite_frame returns) w simulations
  = Returned (Fin (sample_var sample (5 / 100)),
              Fin (sample_cvar sample (5 / 100)),
              Fin (100 - exp (sample_var sample (5 / 100)) * 100),
              Fin (100 - exp (sample_cvar sample (5 / 100)) * 100)).
Proof.
  intros Hlen Hsim sample. unfold main_monte_carlo_var.
  rewrite df_std_finite by assumption.
  rewrite df_mean_nonempty by (destruct returns; [simpl in Hlen; lia | discriminate]).
  rewrite MonteCarloVar_finite
    by (try apply sqrt_pos; try lra; try assumption).
  fold sample. cbn [bind fst snd fexp fmul fsub fneg fadd]. reflexivity.
Qed.

(** X18.  On at least three positive closing prices, with a window that
    fits and at least one simulation, the historical and the Monte Carlo
    block of [main] both run through.  The Monte Carlo block simulates with
    the mean and the sample standard deviation of the log-returns as drift
    and volatility, over a horizon of [rolling_window] periods, and writes
    finite percentages 100 - exp(x) * 100 with the shortfall at least the
    value at risk and both below 100. *)
Theorem main_risk_blocks_report (draw : nat -> nat -> R)
  (prices : list (Timestamp * R)) (w simulations : nat) :
  positive_prices prices ->
  (3 <= length prices)%nat ->
  (1 <= w)%nat ->
  (w + 1 <= length prices)%nat ->
  (1 <= simulations)%nat ->
  let returns := map snd (log_return_series prices) in
  let sample := mc_sample draw (Rmean returns) (Rstd returns) 1 w simulations in
  exists (historical : historical_report) (var cvar : R),
    main_risk_blocks draw (finite_frame prices) w simulations
    = Returned (historical,
                (Fin var, Fin cvar,
                 Fin (100 - exp var * 100), Fin (100 - exp cvar * 100)))
    /\ var = sample_var sample (5 / 100)
    /\ cvar = sample_cvar sample (5 / 100)
    /\ cvar <= var
    /\ 100 - exp var * 100 <= 100 - exp cvar * 100 < 100.
Proof.
  intros Hpos Hlen3 Hw Hlen Hsim returns sample.
  destruct (main_historical_var_report_aux prices w Hpos Hw Hlen)
    as [historical [Hret Hhist]].
  exists historical, (sample_var sample (5 / 100)), (sample_cvar sample (5 / 100)).
  split.
  - unfold main_risk_blocks. rewrite Hret. cbn [bind fst snd]. rewrite Hhist.
    cbn [bind].
    rewrite main_monte_carlo_var_finite
      by (try rewrite length_log_return_series; try assumption; lia).
    reflexivity.
  - split; [reflexivity|]. split; [reflexivity|].
    pose proof (sample_cvar_le_var sample (5 / 100)
                  (mc_sample_nonempty draw _ _ 1 w simulations Hsim) ltac:(lra))
      as Hle.
    split; [exact Hle|].
    pose proof (exp_le_compat _ _ Hle) as Hexp.
    pose proof (exp_pos (sample_cvar sample (5 / 100))) as Hpos'.
    lra.
Qed.

Lemma main_risk_blocks_report_witness :
  exists (historical : historical_report) (var cvar : R),
    main_risk_blocks (fun i j => INR i - INR j) (finite_frame scenario_prices) 2 3
    = Returned (historical,
                (Fin var, Fin cvar,
                 Fin (100 - exp var * 100), Fin (100 - exp cvar * 100)))
    /\ var = sample_var
               (mc_sample (fun i j => INR i - INR j)
                  (Rmean (map snd (log_return_series scenario_prices)))
                  (Rstd (map snd (log_return_series scenario_prices))) 1 2 3)
               (5 / 100)
    /\ cvar = sample_cvar
                (mc_sample (fun i j => INR i - INR j)
                   (Rmean (map snd (log_return_series scenario_prices)))
                   (Rstd (map snd (log_return_series scenario_prices))) 1 2 3)
                (5 / 100)
    /\ cvar <= var
    /\ 100 - exp var * 100 <= 100 - exp cvar * 100 < 100.
Proof.
  apply (main_risk_blocks_report (fun i j => INR i - INR j) scenario_prices 2 3).
  - exact scenario_prices_positive.
  - simpl. lia.
  - lia.
  - simpl. lia.
  - lia.
Defined.

(** ** Two prices only *)

Lemma fadd_nan_r (a : npfloat) : fadd a NaN = NaN.
Proof. destruct a; reflexivity. Qed.

Lemma fsum_nan (n a : nat) :
  (1 <= n)%nat -> fsum (map (fun _ => NaN) (seq a n)) = NaN.
Proof. intros Hn. destruct n; [lia | reflexivity]. Qed.

(** With a volatility that is [nan] every simulated return is [nan], and so
    are the quantile and the tail mean. *)
Lemma MonteCarloVar_nan_vol (draw : nat -> nat -> R) (mu dT : npfloat)
  (periods simulations : nat) (p : R) :
  (1 <= periods)%nat -> (1 <= simulations)%nat -> 0 <= p <= 1 ->
  exists sim_returns : Frame,
    MonteCarloVar draw mu NaN dT periods simulations p
    = Returned (sim_returns, NaN, NaN).
Proof.
  intros Hper Hsim Hp. unfold MonteCarloVar, np_random_normal.
  cbn [fmul fsign bind].
  rewrite map_map.
  rewrite (map_ext _ (fun _ : nat => NaN)).
  2:{ intros i. rewrite (map_ext _ (fun _ : nat => NaN)).
      - apply fsum_nan. assumption.
      - intros j. apply fadd_nan_r. }
  destruct simulations as [|n]; [lia|].
  cbn [seq map]. unfold np_quantile.
  rewrite (Rleb_true 0 p), (Rleb_true p 1) by lra.
  cbn [andb negb existsb isnan orb bind].
  eexists. f_equal. f_equal.
  unfold rows_le, frame_of_array.
  set (idx := map Z.of_nat _). set (vals := NaN :: _).
  assert (Hall : forall rows : Frame,
             filter (fun row => fle (snd row) NaN) rows = []).
  { induction rows as [|[t [x| | |]] rows IH]; simpl; auto. }
  rewrite Hall. reflexivity.
Qed.

(** X19.  With exactly two positive closing prices and a rolling window of
    1 (a look-back period of 2), the historical block of [main] writes the
    ratio of the two prices for both its measures, while the Monte Carlo
    block, whose volatility is the standard deviation of one log-return,
    writes [nan] for var, cvar and both percentages; nothing is raised. *)
Theorem main_risk_blocks_two_prices (draw : nat -> nat -> R)
  (t0 t1 : Timestamp) (x y : R) (simulations : nat) :
  0 < x -> 0 < y -> (1 <= simulations)%nat ->
  exists historical : historical_report,
    main_risk_blocks draw (finite_frame [(t0, x); (t1, y)]) 1 simulations
    = Returned (historical, (NaN, NaN, NaN, NaN))
    /\ value_at_risk historical = Fin (y / x)
    /\ expected_shortfall historical = Fin (y / x).
Proof.
  intros Hx Hy Hsim.
  assert (Hpos : positive_prices [(t0, x); (t1, y)])
    by (repeat constructor; assumption).
  assert (Hratio : 0 < y / x) by (apply Rdiv_lt_0_compat; assumption).
  set (rows := rolling_sum_series 1 (log_return_series [(t0, x); (t1, y)])).
  assert (Hne : rows <> []) by discriminate.
  destruct (tail_risk_finite rows (5 / 100) Hne ltac:(lra)) as [Hq Hm].
  assert (Hall : forall v, In v (map snd rows) -> v = ln (y / x)).
  { intros v [Hv|[]]. rewrite <- Hv. simpl. ring. }
  destruct (sample_constant (map snd rows) _ (5 / 100) ltac:(discriminate)
              ltac:(lra) Hall) as [Hv Hc].
  rewrite Hv in Hq, Hm. rewrite Hc in Hm.
  destruct (MonteCarloVar_nan_vol draw
              (df_mean [(t0, Fin (ln (y / x)))])
              (Fin 1) 1 simulations (5 / 100) ltac:(lia) Hsim ltac:(lra))
    as [sim_returns Hmc].
  eexists. split.
  - unfold main_risk_blocks, main_returns.
    rewrite get_log_returns_finite by assumption. cbn [bind].
    rewrite rolling_sum_finite by lia. cbn [bind fst snd]. fold rows.
    unfold main_historical_var. rewrite Hq. cbn [bind]. rewrite Hm.
    unfold main_monte_carlo_var.
    change (finite_frame (log_return_series [(t0, x); (t1, y)]))
      with [(t0, Fin (ln (y / x)))].
    rewrite df_std_single_row, Hmc. cbn [bind fst snd fexp fmul fsub fneg fadd].
    reflexivity.
  - cbn [value_at_risk expected_shortfall fexp].
    rewrite exp_ln by assumption. split; reflexivity.
Qed.

Lemma main_risk_blocks_two_prices_witness :
  exists historical : historical_report,
    main_risk_blocks (fun _ _ => 0) (finite_frame [(0%Z, 100); (1%Z, 105)]) 1 100
    = Returned (historical, (NaN, NaN, NaN, NaN))
    /\ value_at_risk historical = Fin (105 / 100)
    /\ expected_shortfall historical = Fin (105 / 100).
Proof.
  apply (main_risk_blocks_two_prices (fun _ _ => 0) 0%Z 1%Z 100 105 100).
  - lra.
  - lra.
  - lia.
Defined.

(** ** The option prices main writes *)

Lemma Rsum_ge_term (f : R -> R) (a : R) (l : list R) :
  (forall x, 0 <= f x) -> In a l -> f a <= Rsum (map f l).
Proof.
  intros Hf. induction l as [|x l IH]; intros Hin; [destruct Hin|].
  cbn [map]. change (Rsum (?y :: ?t)) with (y + Rsum t).
  assert (0 <= Rsum (map f l)).
  { apply Rsum_nonneg. intros y Hy. apply in_map_iff in Hy.
    destruct Hy as [z [<- _]]. apply Hf. }
  destruct Hin as [->|Hin].
  - lra.
  - specialize (IH Hin). specialize (Hf x). lra.
Qed.

(** A sample with two different values has a positive standard deviation. *)
Lemma Rstd_pos (l : list R) (a b : R) :
  (2 <= length l)%nat -> In a l -> In b l -> a <> b -> 0 < Rstd l.
Proof.
  intros Hlen Ha Hb Hab. unfold Rstd. apply sqrt_lt_R0. unfold Rvariance.
  assert (Hn : 0 < INR (length l - 1)) by (apply lt_0_INR; lia).
  apply Rdiv_lt_0_compat; [|assumption].
  set (f := fun x => (Rmean l - x) * (Rmean l - x)).
  assert (Hf : forall x, 0 <= f x) by (intros x; exact (Rle_0_sqr (Rmean l - x))).
  pose proof (Rsum_ge_term f a l Hf Ha) as Hta.
  pose proof (Rsum_ge_term f b l Hf Hb) as Htb.
  destruct (Req_dec (Rmean l) a) as [Hma|Hma].
  - assert (0 < f b).
    { unfold f. rewrite Hma. apply Rsqr_pos_lt. lra. }
    fold f. lra.
  - assert (0 < f a).
    { unfold f. apply Rsqr_pos_lt. lra. }
    fold f. lra.
Qed.

Lemma last_finite (l : list (Timestamp * R)) :
  l <> [] -> last (map Fin (map snd l)) NaN = Fin (snd (last l (0%Z, 0))).
Proof.
  induction l as [|r [|r' l] IH]; intros Hne; [congruence | reflexivity |].
  change (last (r :: r' :: l) (0%Z, 0)) with (last (r' :: l) (0%Z, 0)).
  rewrite <- IH by discriminate. reflexivity.
Qed.

Lemma iloc_last_finite (prices : list (Timestamp * R)) :
  prices <> [] ->
  iloc_last (to_numpy (finite_frame prices))
  = Returned (Fin (snd (last prices (0%Z, 0)))).
Proof.
  intros Hne. rewrite to_numpy_finite_frame, <- last_finite by assumption.
  destruct prices as [|row prices]; [congruence | reflexivity].
Qed.

(** What the options block hands to the pricer on finite inputs. *)
Lemma main_option_prices_args (prices : list (Timestamp * R)) (K rho : R)
  (months : nat) :
  prices <> [] ->
  (3 <= length prices)%nat ->
  main_option_prices (finite_frame prices)
    (finite_frame (log_return_series prices)) (Fin K) (Fin rho) months
  = (call_price <-
       call_black_scholes (Fin (snd (last prices (0%Z, 0)))) (Fin K)
         (Fin (Rstd (map snd (log_return_series prices)) * sqrt 252))
         (Fin (rho / 100)) (Fin (INR months / 12)) ;;
     put_price <-
       put_black_scholes (Fin (snd (last prices (0%Z, 0)))) (Fin K)
         (Fin (Rstd (map snd (log_return_series prices)) * sqrt 252))
         (Fin (rho / 100)) (Fin (INR months / 12)) ;;
     Returned (call_price, put_price)).
Proof.
  intros Hne Hlen. unfold main_option_prices.
  rewrite df_std_finite by (rewrite length_log_return_series; lia).
  rewrite iloc_last_finite by assumption.
  cbn [fsqrt fmul fdiv bind].
  rewrite (Rcompare_gt 252 0), (Rcompare_gt 100 0), (Rcompare_gt 12 0) by lra.
  reflexivity.
Qed.

(** X20.  When the log-returns of at least three positive closing prices
    are not all equal, the options block of [main] prices at the last close
    with the annualised volatility std * sqrt(252), the rate entered divided
    by 100 and the expiry in months divided by 12: for a strike K > 0, a
    rate >= 0 and at least one month it writes the Black-Scholes call and
    the put call - S0 + K exp(-rT), both finite. *)
Theorem main_option_prices_report (prices : list (Timestamp * R)) (K rho : R)
  (months : nat) (a b : R) :
  positive_prices prices ->
  (3 <= length prices)%nat ->
  In a (map snd (log_return_series prices)) ->
  In b (map snd (log_return_series prices)) ->
  a <> b ->
  0 < K -> 0 <= rho -> (1 <= months)%nat ->
  let S0 := snd (last prices (0%Z, 0)) in
  let sigma := Rstd (map snd (log_return_series prices)) * sqrt 252 in
  let r := rho / 100 in
  let T := INR months / 12 in
  0 < sigma
  /\ main_option_prices (finite_frame prices)
       (finite_frame (log_return_series prices)) (Fin K) (Fin rho) months
     = Returned (Fin (bs_call S0 K sigma r T),
                 Fin (bs_call S0 K sigma r T - S0 + K * exp (- (r * T)))).
Proof.
  intros Hpos Hlen Ha Hb Hab HK Hrho Hmonths S0 sigma r T.
  assert (Hne : prices <> []) by (destruct prices; [simpl in Hlen; lia | discriminate]).
  assert (HS0 : 0 < S0).
  { unfold S0. unfold positive_prices in Hpos. rewrite Forall_forall in Hpos.
    apply Hpos.
    destruct (exists_last Hne) as [l' [row ->]]. rewrite last_last.
    apply in_or_app. right. left. reflexivity. }
  assert (Hsd : 0 < Rstd (map snd (log_return_series prices))).
  { apply (Rstd_pos _ a b); auto.
    rewrite length_map, length_log_return_series. lia. }
  assert (Hsigma : 0 < sigma).
  { unfold sigma. apply Rmult_lt_0_compat; [assumption|].
    apply sqrt_lt_R0. lra. }
  assert (HT : 0 < T).
  { unfold T. apply Rdiv_lt_0_compat; [|lra]. apply lt_0_INR. lia. }
  split; [exact Hsigma|].
  rewrite main_option_prices_args by assumption.
  fold S0 sigma r T.
  rewrite call_black_scholes_finite by assumption. cbn [bind].
  unfold put_black_scholes.
  rewrite call_black_scholes_finite by assumption.
  cbn [bind fsub fadd fneg fmul fexp].
  replace (- r * T) with (- (r * T)) by ring.
  reflexivity.
Qed.

Lemma main_option_prices_report_witness :
  0 < Rstd (map snd (log_return_series scenario_prices)) * sqrt 252
  /\ main_option_prices (finite_frame scenario_prices)
       (finite_frame (log_return_series scenario_prices)) (Fin 100) (Fin 1) 6
     = Returned
         (Fin (bs_call (snd (last scenario_prices (0%Z, 0))) 100
                 (Rstd (map snd (log_return_series scenario_prices)) * sqrt 252)
                 (1 / 100) (INR 6 / 12)),
          Fin (bs_call (snd (last scenario_prices (0%Z, 0))) 100
                 (Rstd (map snd (log_return_series scenario_prices)) * sqrt 252)
                 (1 / 100) (INR 6 / 12)
               - snd (last scenario_prices (0%Z, 0))
               + 100 * exp (- (1 / 100 * (INR 6 / 12))))).
Proof.
  apply (main_option_prices_report scenario_prices 100 1 6
           (ln (105 / 100)) (ln (98 / 105))).
  - exact scenario_prices_positive.
  - simpl. lia.
  - simpl. left. reflexivity.
  - simpl. right. left. reflexivity.
  - pose proof ln_105_100. pose proof ln_98_105. lra.
  - lra.
  - lra.
  - lia.
Defined.


